(** * Wordie: the guess scorer of [Frontend/wordie/script.js]

    A shallow embedding of the game logic of the word-guessing game
    ([processGuess], [checkWinCondition], [isValidInput] and the store of the
    secret word done by [fetchSecretWord]) together with the properties of
    the two-pass scoring algorithm. The second half of the file covers the
    rest of the script that writes [gameState]: [fetchSecretWord],
    [validateWord], [endGame], [handleSubmit], [init], [resetGame] and the
    filter that [enableCurrentRow] puts on the letter boxes. The network
    and the page enter as arguments; what is only shown on the page is left
    out.

    Modelling choices, all taken from the script:
    - a JavaScript string is a [string]; [split('')] yields the list of its
      code units, each a one-character string, modelled as [list ascii].
      The model covers the ASCII range, which is what [isValidInput]
      ([/^[A-Za-z]+$/]) lets through;
    - reading an array past its end yields [undefined]: [arr !! i] is an
      [option ascii] with [None] for [undefined];
    - [secretLetterCount] is a plain object used as a map from property keys
      (strings) to numbers: a [gmap string jsnum]. Reading a missing property
      yields [undefined] ([None]); the property key of [undefined] is the
      string ["undefined"]. The keys used are one-character strings and
      ["undefined"], none of which is inherited from [Object.prototype];
    - [result] starts as [[]] and is assigned by index; an assignment past
      the end extends the array with holes ([None]);
    - [gameState] is a global object: the functions that touch it live in a
      state monad over [GameState]. The [console.log] calls write only to the
      console and are left out. *)

From Stdlib Require Import ZArith Ascii String Lia.
From stdpp Require Import base option list gmap strings.

Local Open Scope Z_scope.

(** ** JavaScript values used by the scorer *)

(** Numbers stored in [secretLetterCount]: integers, or [NaN] (produced by
    decrementing a property that is [undefined]). *)
Inductive jsnum : Type :=
  | Num (z : Z)
  | NaN.

(** The three classifications written into [result]. *)
Inductive Classification : Type :=
  | correct
  | present
  | absent.

#[global] Instance jsnum_eq_dec : EqDecision jsnum.
Proof. solve_decision. Defined.

#[global] Instance Classification_eq_dec : EqDecision Classification.
Proof. solve_decision. Defined.

(** [x || 0] on the result of a property read, followed by [+ 1]:
    [undefined], [0] and [NaN] are falsy. *)
Definition or_zero (v : option jsnum) : jsnum :=
  match v with
  | Some (Num z) => if decide (z = 0) then Num 0 else Num z
  | Some NaN => Num 0
  | None => Num 0
  end.

Definition js_add1 (n : jsnum) : jsnum :=
  match n with
  | Num z => Num (z + 1)
  | NaN => NaN
  end.

(** [x--] on a property: the old value is converted to a number
    ([undefined] becomes [NaN]) and one is subtracted. *)
Definition js_decr (v : option jsnum) : jsnum :=
  match v with
  | Some (Num z) => Num (z - 1)
  | Some NaN => NaN
  | None => NaN
  end.

(** [x > 0] on the result of a property read; comparisons with [NaN]
    (and so with [undefined]) are false. *)
Definition js_gt0 (v : option jsnum) : bool :=
  match v with
  | Some (Num z) => bool_decide (0 < z)
  | Some NaN => false
  | None => false
  end.

(** Property key of an array element: a one-character string, or the
    string ["undefined"] for a read past the end. *)
Definition prop_key (v : option ascii) : string :=
  match v with
  | Some c => String c EmptyString
  | None => "undefined"
  end.

(** ** Strings *)

(** [toUpperCase] on one ASCII code unit: [a]-[z] go to [A]-[Z], every
    other code unit is kept. This is what JavaScript does on the code units
    0-127; above them it maps further letters and may change the length of
    the string, which the model does not follow. *)
Definition upper_char (c : ascii) : ascii :=
  let n := nat_of_ascii c in
  if (97 <=? n)%nat && (n <=? 122)%nat then ascii_of_nat (n - 32) else c.

Fixpoint toUpperCase (s : string) : string :=
  match s with
  | EmptyString => EmptyString
  | String c s' => String (upper_char c) (toUpperCase s')
  end.

(** [s.split('')] *)
Definition split (s : string) : list ascii := list_ascii_of_string s.

(** [/[A-Za-z]/] on one code unit. *)
Definition is_alpha (c : ascii) : bool :=
  let n := nat_of_ascii c in
  ((65 <=? n)%nat && (n <=? 90)%nat) || ((97 <=? n)%nat && (n <=? 122)%nat).

(** [/^[A-Za-z]+$/.test(s)] *)
Definition test_alpha_plus (s : string) : bool :=
  match split s with
  | [] => false
  | cs => forallb is_alpha cs
  end.

(** ** Arrays assigned by index *)

(** [arr[i] = v] on an array with holes: assignment past the end extends
    the array, filling the gap with holes. *)
Definition array_set {A} (i : nat) (v : A) (arr : list (option A))
  : list (option A) :=
  if decide (i < length arr)%nat then <[i := Some v]> arr
  else arr ++ replicate (i - length arr) None ++ [Some v].

(** [arr[i]]: [undefined] for a hole or an index past the end. *)
Definition array_get {A} (arr : list (option A)) (i : nat) : option A :=
  match arr !! i with
  | Some v => v
  | None => None
  end.

(** [for (let i = 0; i < n; i++) body(i)] over a loop state. *)
Definition for_loop {S} (n : nat) (body : nat → S → S) (st : S) : S :=
  fold_left (λ acc i, body i acc) (seq 0 n) st.

(** ** Game state *)

Record GameState : Type := mkGameState {
  secretWord : string;
  guesses : list (string * list (option Classification));
  currentRow : nat;
  maxGuesses : nat;
  gameOver : bool
}.

(** [let gameState = { secretWord: '', guesses: [], currentRow: 0,
    maxGuesses: 6, gameOver: false }] *)
Definition initialGameState : GameState :=
  {| secretWord := ""; guesses := []; currentRow := 0%nat;
     maxGuesses := 6%nat; gameOver := false |}.

(** Functions that read or write the global [gameState]. *)
Definition Game (A : Type) : Type := GameState → A * GameState.

#[global] Instance Game_ret : MRet Game := λ A x st, (x, st).
#[global] Instance Game_bind : MBind Game :=
  λ A B f m st, let '(x, st') := m st in f x st'.

Definition gets {A} (f : GameState → A) : Game A := λ st, (f st, st).
Definition modify (f : GameState → GameState) : Game unit := λ st, (tt, f st).

Definition evalGame {A} (m : Game A) (st : GameState) : A := fst (m st).
Definition execGame {A} (m : Game A) (st : GameState) : GameState := snd (m st).

(** The assignment [gameState.secretWord = data.word.toUpperCase()] of
    [fetchSecretWord], for the word [word] delivered by the service. *)
Definition storeSecretWord (word : string) : Game string :=
  modify (λ st, {| secretWord := toUpperCase word; guesses := guesses st;
                   currentRow := currentRow st; maxGuesses := maxGuesses st;
                   gameOver := gameOver st |}) ;;
  gets secretWord.

(** ** Input validation *)

(** The boolean returned by [isValidInput] (the messages it shows are
    display only). *)
Definition isValidInput (guess : string) : bool :=
  if negb (String.length guess =? 5)%nat then false
  else if negb (test_alpha_plus guess) then false
  else true.

(** ** Game logic *)

(** The [forEach] that fills [secretLetterCount]. *)
Definition countLetters (secretArray : list ascii) : gmap string jsnum :=
  fold_left
    (λ secretLetterCount letter,
       <[prop_key (Some letter) :=
           js_add1 (or_zero (secretLetterCount !! prop_key (Some letter)))]>
         secretLetterCount)
    secretArray ∅.

(** Loop state of the two passes: [result] and [secretLetterCount]. *)
Definition ScoreState : Type :=
  list (option Classification) * gmap string jsnum.

(** Body of the first pass. *)
Definition firstPass_body (guessArray secretArray : list ascii)
    (i : nat) (st : ScoreState) : ScoreState :=
  let '(result, secretLetterCount) := st in
  if decide (guessArray !! i = secretArray !! i) then
    (array_set i correct result,
     <[prop_key (guessArray !! i) :=
         js_decr (secretLetterCount !! prop_key (guessArray !! i))]>
       secretLetterCount)
  else st.

(** Body of the second pass. *)
Definition secondPass_body (guessArray : list ascii)
    (i : nat) (st : ScoreState) : ScoreState :=
  let '(result, secretLetterCount) := st in
  if decide (array_get result i = Some correct) then st
  else if js_gt0 (secretLetterCount !! prop_key (guessArray !! i)) then
    (array_set i present result,
     <[prop_key (guessArray !! i) :=
         js_decr (secretLetterCount !! prop_key (guessArray !! i))]>
       secretLetterCount)
  else (array_set i absent result, secretLetterCount).

Definition firstPass (guessArray secretArray : list ascii) : ScoreState :=
  for_loop 5 (firstPass_body guessArray secretArray)
    ([], countLetters secretArray).

Definition secondPass (guessArray secretArray : list ascii) : ScoreState :=
  for_loop 5 (secondPass_body guessArray) (firstPass guessArray secretArray).

(** The body of [processGuess] once both arrays are built: the two passes
    over the upper-cased guess and the stored secret, and the [result]
    array they leave. *)
Definition score (guessArray secretArray : list ascii)
  : list (option Classification) :=
  fst (secondPass guessArray secretArray).

Definition processGuess (guess : string)
  : Game (list (option Classification)) :=
  secret ← gets secretWord;
  let secretArray := split secret in
  let guessArray := split (toUpperCase guess) in
  mret (score guessArray secretArray).

Definition checkWinCondition (guess : string) : Game bool :=
  secret ← gets secretWord;
  mret (bool_decide (toUpperCase guess = secret)).

(** A game state holding [secret] as its secret word. *)
Definition withSecret (secret : string) : GameState :=
  {| secretWord := secret; guesses := []; currentRow := 0%nat;
     maxGuesses := 6%nat; gameOver := false |}.

(** ** The rest of the game: fetching, validating, submitting *)

(** [toLowerCase] on one ASCII code unit; like [upper_char], exact on the
    code units 0-127 only. *)
Definition lower_char (c : ascii) : ascii :=
  let n := nat_of_ascii c in
  if (65 <=? n)%nat && (n <=? 90)%nat then ascii_of_nat (n + 32) else c.

Fixpoint toLowerCase (s : string) : string :=
  match s with
  | EmptyString => EmptyString
  | String c s' => String (lower_char c) (toLowerCase s')
  end.

(** White space removed by [trim], in the ASCII range: tab, line feed,
    vertical tab, form feed, carriage return and space. (JavaScript also
    removes the white space above code unit 127, such as the no-break
    space.) *)
Definition is_space (c : ascii) : bool :=
  let n := nat_of_ascii c in
  ((9 <=? n)%nat && (n <=? 13)%nat) || (n =? 32)%nat.

Fixpoint trimStart (cs : list ascii) : list ascii :=
  match cs with
  | [] => []
  | c :: cs' => if is_space c then trimStart cs' else cs
  end.

(** [s.trim()] *)
Definition trim (s : string) : string :=
  string_of_list_ascii (rev (trimStart (rev (trimStart (split s))))).

(** The [input] listener that [enableCurrentRow] puts on every letter box:
    [e.target.value.replace(/[^a-zA-Z]/g, '').toUpperCase()]. *)
Definition sanitizeInput (value : string) : string :=
  toUpperCase (string_of_list_ascii (List.filter is_alpha (split value))).

(** [fetchSecretWord]. The network exchange is its argument: [Some word]
    when the request succeeds and the answer carries the string [word],
    [None] when the request fails, the status is not ok or the body has no
    usable word. On a failure the function shows a message and rethrows:
    the result is [None] and [gameState] is not written. *)
Definition fetchSecretWord (response : option string) : Game (option string) :=
  match response with
  | Some word => secret ← storeSecretWord word; mret (Some secret)
  | None => mret None
  end.

(** [validateWord]. The dictionary service is a function of the word it is
    sent: [Some b] for an answer whose [validWord] is [b], [None] for a
    failed request, which [validateWord] catches and turns into [false].
    The word is sent in lower case. *)
Definition validateWord (service : string → option bool) (word : string)
  : bool :=
  match service (toLowerCase word) with
  | Some validWord => validWord
  | None => false
  end.

(** [endGame]: the write to [gameState]; the rest is display. *)
Definition endGame (won : bool) : Game unit :=
  modify (λ st, {| secretWord := secretWord st; guesses := guesses st;
                   currentRow := currentRow st; maxGuesses := maxGuesses st;
                   gameOver := true |}).

(** [gameState.guesses.push({ word: guess, result: result })] *)
Definition pushGuess (guess : string) (result : list (option Classification))
  : Game unit :=
  modify (λ st, {| secretWord := secretWord st;
                   guesses := guesses st ++ [(guess, result)];
                   currentRow := currentRow st; maxGuesses := maxGuesses st;
                   gameOver := gameOver st |}).

(** [gameState.currentRow++] *)
Definition nextRow : Game unit :=
  modify (λ st, {| secretWord := secretWord st; guesses := guesses st;
                   currentRow := S (currentRow st);
                   maxGuesses := maxGuesses st; gameOver := gameOver st |}).

(** The places where [handleSubmit] returns. *)
Inductive SubmitExit : Type :=
  | ExitGameOver
  | ExitNoRow
  | ExitEmptyBox
  | ExitInvalidFormat
  | ExitNotAWord
  | ExitWon
  | ExitLost
  | ExitNextRow.

(** [handleSubmit] up to its [await]: the guard on [gameOver], the reading
    of the letter boxes and the format check. The page is the function
    [dom]: [dom row] is the list of the values of the letter boxes of the
    element with [data-row] equal to [row], or [None] when there is no such
    element. The result is the exit taken, or the guess to validate. *)
Definition handleSubmit_collect (dom : nat → option (list string))
  : Game (SubmitExit + string) :=
  over ← gets gameOver;
  if over : bool then mret (inl ExitGameOver)
  else
    row ← gets currentRow;
    match dom row with
    | None => mret (inl ExitNoRow)
    | Some inputs =>
        let guessArray := map (λ value, toUpperCase (trim value)) inputs in
        if existsb (λ letter, bool_decide (letter = EmptyString)) guessArray
        then mret (inl ExitEmptyBox)
        else
          let guess := String.concat EmptyString guessArray in
          if negb (isValidInput guess) then mret (inl ExitInvalidFormat)
          else mret (inr guess)
    end.

(** [handleSubmit] from its [await] on: the dictionary check, the scoring,
    the record of the guess and the end of the game. It reads [gameState]
    as it is when the handler resumes. *)
Definition handleSubmit_score (service : string → option bool)
    (guess : string) : Game SubmitExit :=
  if negb (validateWord service guess) then mret ExitNotAWord
  else
    result ← processGuess guess;
    pushGuess guess result;;
    win ← checkWinCondition guess;
    if win : bool then endGame true;; mret ExitWon
    else
      nextRow;;
      row ← gets currentRow;
      limit ← gets maxGuesses;
      if (limit <=? row)%nat then endGame false;; mret ExitLost
      else mret ExitNextRow.

(** One run of [handleSubmit] with no other handler run while it awaits
    the dictionary. *)
Definition handleSubmit (dom : nat → option (list string))
    (service : string → option bool) : Game SubmitExit :=
  collected ← handleSubmit_collect dom;
  match collected with
  | inl exit => mret exit
  | inr guess => handleSubmit_score service guess
  end.

(** [init]: its write to [gameState] is the one of [fetchSecretWord]; a
    failure is caught and shown. The result tells whether the game started. *)
Definition init (response : option string) : Game bool :=
  fetched ← fetchSecretWord response;
  mret (bool_decide (is_Some fetched)).

(** [resetGame]: a fresh [gameState], then [init]. *)
Definition resetGame (response : option string) : Game bool :=
  modify (λ _, initialGameState);;
  init response.

(** ** Specification vocabulary *)

(** Number of indices [i < n] at which [P] holds. *)
Fixpoint count_upto (P : nat → bool) (n : nat) : Z :=
  match n with
  | O => 0
  | S n' => count_upto P n' + (if P n' then 1 else 0)
  end.

(** Number of occurrences of the letter [L] in a word. *)
Definition occurrences (L : ascii) (word : list ascii) : Z :=
  Z.of_nat (length (filter (λ c, c = L) word)).

(** Position [i] is an exact match ([guessArray[i] === secretArray[i]]). *)
Definition exact (g s : list ascii) (i : nat) : bool :=
  bool_decide (g !! i = s !! i).

(** Position [i] holds the guessed letter [L] and is an exact match. *)
Definition exact_with (L : ascii) (g s : list ascii) (i : nat) : bool :=
  bool_decide (g !! i = Some L) && exact g s i.

(** Position [i] holds the guessed letter [L] and is not an exact match. *)
Definition misplaced_with (L : ascii) (g s : list ascii) (i : nat) : bool :=
  bool_decide (g !! i = Some L) && negb (exact g s i).

(** Copies of [L] left in the secret once the exact matches are taken. *)
Definition remaining (L : ascii) (g s : list ascii) : Z :=
  occurrences L s - count_upto (exact_with L g s) 5.

(** The classification of position [i] written as a closed formula:
    ascending order, leftmost misplaced copies served first. *)
Definition classify (g s : list ascii) (i : nat) : Classification :=
  if exact g s i then correct
  else match g !! i with
       | Some L =>
           if bool_decide (count_upto (misplaced_with L g s) i < remaining L g s)
           then present else absent
       | None => absent
       end.

(** Position [i] of [result] is classified [correct] or [present] and its
    guessed letter is [L]. *)
Definition hit_with (L : ascii) (g : list ascii)
    (result : list (option Classification)) (i : nat) : bool :=
  bool_decide (g !! i = Some L)
  && (bool_decide (array_get result i = Some correct)
      || bool_decide (array_get result i = Some present)).

(** Numeric reading of a property: the number stored, [0] otherwise. *)
Definition numval (v : option jsnum) : Z :=
  match v with
  | Some (Num z) => z
  | _ => 0
  end.

(** Loop invariant of the first pass after [n] iterations: exactly the
    exact matches below [n] are marked, every letter of the secret maps to
    its occurrences minus the exact matches found so far, and the key
    ["undefined"] holds nothing or [NaN]. *)
Definition firstPass_inv (g s : list ascii) (n : nat) (st : ScoreState) : Prop :=
  (∀ i, array_get st.1 i
        = if bool_decide (i < n)%nat && exact g s i then Some correct else None)
  ∧ (length st.1 ≤ n)%nat
  ∧ (∀ L, st.2 !! prop_key (Some L)
          = if decide (occurrences L s = 0) then None
            else Some (Num (occurrences L s - count_upto (exact_with L g s) n)))
  ∧ (st.2 !! prop_key None = None ∨ st.2 !! prop_key None = Some NaN).

(** Loop invariant of the second pass after [n] iterations: positions below
    [n] hold their final classification, later ones only the marks of the
    first pass, and every letter maps to what is left of it after serving
    the misplaced copies below [n]. *)
Definition secondPass_inv (g s : list ascii) (n : nat) (st : ScoreState) : Prop :=
  (∀ i, array_get st.1 i
        = if bool_decide (i < n)%nat then Some (classify g s i)
          else if bool_decide (i < 5)%nat && exact g s i then Some correct
          else None)
  ∧ (n ≤ length st.1 ≤ 5)%nat
  ∧ (∀ L, numval (st.2 !! prop_key (Some L))
          = Z.max 0 (remaining L g s - count_upto (misplaced_with L g s) n))
  ∧ (st.2 !! prop_key None = None ∨ st.2 !! prop_key None = Some NaN).

(** A code unit is one of [A]-[Z]. *)
Definition is_upper (c : ascii) : bool :=
  let n := nat_of_ascii c in (65 <=? n)%nat && (n <=? 90)%nat.

(** A code unit is one of [a]-[z]. *)
Definition is_lower (c : ascii) : bool :=
  let n := nat_of_ascii c in (97 <=? n)%nat && (n <=? 122)%nat.

(** States the game can be in when its handlers run one at a time: the page
    loads and [init] runs, then submissions and resets follow each other.
    (Submissions are allowed after a failed first [init] as well, which the
    page does not offer: the set is a superset of what can happen.) *)
Inductive reachable : GameState → Prop :=
  | reachable_load (response : option string) :
      reachable (execGame (init response) initialGameState)
  | reachable_submit (st : GameState) (dom : nat → option (list string))
      (service : string → option bool) :
      reachable st → reachable (execGame (handleSubmit dom service) st)
  | reachable_reset (st : GameState) (response : option string) :
      reachable st → reachable (execGame (resetGame response) st).

(** What [handleSubmit] and [resetGame] keep true of [gameState]. *)
Definition game_inv (st : GameState) : Prop :=
  maxGuesses st = 6%nat
  ∧ toUpperCase (secretWord st) = secretWord st
  ∧ Forall (λ entry, isValidInput entry.1 = true
                     ∧ toUpperCase entry.1 = entry.1
                     ∧ entry.2 = evalGame (processGuess entry.1) st)
      (guesses st)
  ∧ (gameOver st = false →
       currentRow st = length (guesses st)
       ∧ (length (guesses st) < 6)%nat
       ∧ Forall (λ entry, entry.1 ≠ secretWord st) (guesses st))
  ∧ (gameOver st = true →
       (currentRow st = 6%nat ∧ length (guesses st) = 6%nat
        ∧ Forall (λ entry, entry.1 ≠ secretWord st) (guesses st))
       ∨ (∃ earlier result,
            guesses st = earlier ++ [(secretWord st, result)]
            ∧ currentRow st = length earlier
            ∧ (length earlier < 6)%nat
            ∧ Forall (λ entry, entry.1 ≠ secretWord st) earlier)).

(** ** Arrays and loops *)

Lemma for_loop_S {S} (n : nat) (body : nat → S → S) (st : S) :
  for_loop (Datatypes.S n) body st = body n (for_loop n body st).
Proof.
  unfold for_loop. rewrite seq_S, fold_left_app. reflexivity.
Qed.

Lemma length_array_set {A} (i : nat) (v : A) (arr : list (option A)) :
  length (array_set i v arr) = Nat.max (length arr) (Datatypes.S i).
Proof.
  unfold array_set. case_decide.
  - rewrite length_insert. lia.
  - rewrite !length_app, length_replicate. simpl. lia.
Qed.

Lemma array_get_set {A} (i j : nat) (v : A) (arr : list (option A)) :
  array_get (array_set i v arr) j
  = if decide (j = i) then Some v else array_get arr j.
Proof.
  unfold array_get, array_set. case_decide as Hlt.
  - case_decide as Hji.
    + subst j. rewrite list_lookup_insert_eq by done. reflexivity.
    + rewrite list_lookup_insert_ne by done. reflexivity.
  - destruct (decide (j < length arr)%nat) as [Hj|Hj].
    + rewrite lookup_app_l by done. case_decide; [lia|reflexivity].
    + rewrite lookup_app_r by lia.
      rewrite (lookup_ge_None_2 arr j) by lia.
      destruct (decide (j - length arr < i - length arr)%nat) as [Hk|Hk].
      * rewrite lookup_app_l by (rewrite length_replicate; lia).
        rewrite lookup_replicate_2 by done. case_decide; [lia|reflexivity].
      * rewrite lookup_app_r by (rewrite length_replicate; lia).
        rewrite length_replicate. case_decide as Hji.
        -- subst j. replace (i - length arr - (i - length arr))%nat with 0%nat by lia.
           reflexivity.
        -- rewrite lookup_ge_None_2 by (simpl; lia). reflexivity.
Qed.

Lemma array_get_Some_lt {A} (arr : list (option A)) (i : nat) (v : A) :
  array_get arr i = Some v → (i < length arr)%nat.
Proof.
  unfold array_get. intros H. apply lookup_lt_is_Some.
  destruct (arr !! i); [eauto|discriminate].
Qed.

(** ** Counting *)

Lemma count_upto_nonneg (P : nat → bool) (n : nat) : 0 ≤ count_upto P n.
Proof. induction n as [|n IH]; simpl; [lia|]. destruct (P n); lia. Qed.

Lemma count_upto_mono (P Q : nat → bool) (n : nat) :
  (∀ i, (i < n)%nat → P i = true → Q i = true) →
  count_upto P n ≤ count_upto Q n.
Proof.
  induction n as [|n IH]; intros H; simpl; [lia|].
  specialize (IH (λ i Hi, H i (Nat.lt_lt_succ_r _ _ Hi))).
  specialize (H n (Nat.lt_succ_diag_r n)).
  destruct (P n), (Q n); first [lia | specialize (H eq_refl); discriminate].
Qed.

Lemma count_upto_split (H E F : nat → bool) (n : nat) :
  (∀ i, (i < n)%nat → H i = E i || F i) →
  (∀ i, (i < n)%nat → E i && F i = false) →
  count_upto H n = count_upto E n + count_upto F n.
Proof.
  induction n as [|n IH]; intros Hor Hdis; simpl; [reflexivity|].
  rewrite IH by (intros; first [apply Hor|apply Hdis]; lia).
  specialize (Hor n (Nat.lt_succ_diag_r n)).
  specialize (Hdis n (Nat.lt_succ_diag_r n)).
  rewrite Hor. destruct (E n), (F n); simpl in *; try discriminate; lia.
Qed.

(** Serving the first [k] of the indices that satisfy [M]. *)
Lemma count_upto_first (M : nat → bool) (k : Z) (n : nat) :
  count_upto (λ i, M i && bool_decide (count_upto M i < k)) n
  = Z.min (count_upto M n) (Z.max 0 k).
Proof.
  induction n as [|n IH]; simpl; [lia|].
  rewrite IH. pose proof (count_upto_nonneg M n).
  destruct (M n); simpl; [|lia].
  case_bool_decide; lia.
Qed.

Lemma occurrences_nonneg (L : ascii) (word : list ascii) :
  0 ≤ occurrences L word.
Proof. unfold occurrences. lia. Qed.

Lemma occurrences_app (L : ascii) (w1 w2 : list ascii) :
  occurrences L (w1 ++ w2) = occurrences L w1 + occurrences L w2.
Proof. unfold occurrences. rewrite filter_app, length_app. lia. Qed.

Lemma occurrences_singleton (L c : ascii) :
  occurrences L [c] = if decide (c = L) then 1 else 0.
Proof.
  unfold occurrences. rewrite filter_cons, filter_nil.
  case_decide; reflexivity.
Qed.

Lemma occurrences_zero_iff (L : ascii) (word : list ascii) :
  occurrences L word = 0 ↔ L ∉ word.
Proof.
  unfold occurrences. induction word as [|c w IH].
  - split; [intros _; apply not_elem_of_nil|reflexivity].
  - rewrite filter_cons, not_elem_of_cons. case_decide as Hc.
    + subst c. simpl. split; [lia|intros [? _]; done].
    + rewrite IH. split; [intros ?; split; [congruence|done]|intros [_ ?]; done].
Qed.

(** Counting by index agrees with counting occurrences. *)
Lemma count_upto_take (L : ascii) (word : list ascii) (n : nat) :
  count_upto (λ i, bool_decide (word !! i = Some L)) n
  = occurrences L (take n word).
Proof.
  induction n as [|n IH]; simpl count_upto.
  - reflexivity.
  - rewrite IH. destruct (word !! n) as [c|] eqn:Hn.
    + rewrite (take_S_r _ _ _ Hn), occurrences_app, occurrences_singleton.
      case_bool_decide; case_decide; congruence || lia.
    + apply lookup_ge_None_1 in Hn.
      rewrite !take_ge by lia. rewrite bool_decide_eq_false_2 by done. lia.
Qed.

Lemma count_upto_le_occurrences (L : ascii) (word : list ascii) (n : nat) :
  count_upto (λ i, bool_decide (word !! i = Some L)) n ≤ occurrences L word.
Proof.
  rewrite count_upto_take.
  rewrite <- (take_drop n word) at 2. rewrite occurrences_app.
  pose proof (occurrences_nonneg L (drop n word)). lia.
Qed.

Lemma exact_with_le_occurrences (L : ascii) (g s : list ascii) (n : nat) :
  count_upto (exact_with L g s) n ≤ occurrences L s.
Proof.
  etransitivity; [|apply (count_upto_le_occurrences L s n)].
  apply count_upto_mono. intros i _. unfold exact_with, exact.
  rewrite andb_true_iff, !bool_decide_eq_true. intros [H1 H2]. congruence.
Qed.

Lemma remaining_nonneg (L : ascii) (g s : list ascii) : 0 ≤ remaining L g s.
Proof.
  unfold remaining. pose proof (exact_with_le_occurrences L g s 5). lia.
Qed.

(** ** The frequency map *)

Lemma prop_key_letter_inj (c L : ascii) :
  prop_key (Some c) = prop_key (Some L) → c = L.
Proof. simpl. congruence. Qed.

Lemma prop_key_letter_undefined (c : ascii) : prop_key (Some c) ≠ prop_key None.
Proof. simpl. intros H. injection H as _ H. discriminate. Qed.

Lemma js_gt0_numval (v : option jsnum) : js_gt0 v = bool_decide (0 < numval v).
Proof.
  destruct v as [[z|]|]; simpl; try reflexivity;
    symmetry; apply bool_decide_eq_false_2; lia.
Qed.

Lemma numval_decr (v : option jsnum) :
  js_gt0 v = true → numval (Some (js_decr v)) = numval v - 1.
Proof. destruct v as [[z|]|]; simpl; intros H; done. Qed.

Lemma countLetters_snoc (s : list ascii) (c : ascii) :
  countLetters (s ++ [c])
  = <[prop_key (Some c) :=
        js_add1 (or_zero (countLetters s !! prop_key (Some c)))]>
      (countLetters s).
Proof. unfold countLetters. rewrite fold_left_app. reflexivity. Qed.

(** After the [forEach], a letter of the secret maps to its number of
    occurrences and every other letter has no property. *)
Lemma countLetters_letter (L : ascii) (s : list ascii) :
  countLetters s !! prop_key (Some L)
  = if decide (occurrences L s = 0) then None
    else Some (Num (occurrences L s)).
Proof.
  induction s as [|c s IH] using rev_ind.
  - reflexivity.
  - rewrite countLetters_snoc, occurrences_app, occurrences_singleton.
    pose proof (occurrences_nonneg L s) as Hnn.
    destruct (decide (c = L)) as [->|Hne].
    + rewrite lookup_insert_eq, IH.
      destruct (decide (occurrences L s = 0)) as [Hz|Hz]; simpl.
      * rewrite Hz. reflexivity.
      * rewrite decide_False by lia. simpl.
        rewrite decide_False by lia. reflexivity.
    + rewrite lookup_insert_ne by (intros ?%prop_key_letter_inj; done).
      rewrite IH, Z.add_0_r. reflexivity.
Qed.

Lemma countLetters_undefined (s : list ascii) :
  countLetters s !! prop_key None = None.
Proof.
  induction s as [|c s IH] using rev_ind.
  - reflexivity.
  - rewrite countLetters_snoc, lookup_insert_ne; [done|].
    apply prop_key_letter_undefined.
Qed.

(** ** First pass *)

Lemma firstPass_inv_init (g s : list ascii) :
  firstPass_inv g s 0 ([], countLetters s).
Proof.
  (split; [|split; [|split]]); cbn [fst snd].
  - intros i. reflexivity.
  - simpl. lia.
  - intros L. rewrite countLetters_letter, Z.sub_0_r. reflexivity.
  - left. apply countLetters_undefined.
Qed.

Lemma firstPass_inv_step (g s : list ascii) (n : nat) (st : ScoreState) :
  firstPass_inv g s n st →
  firstPass_inv g s (S n) (firstPass_body g s n st).
Proof.
  destruct st as [r o]. intros (Hget & Hlen & Hcnt & Hund).
  unfold firstPass_body. cbn [fst snd] in *. case_decide as Hex.
  - (* exact match at [n] *)
    (split; [|split; [|split]]); cbn [fst snd].
    + intros i. rewrite array_get_set, Hget. case_decide as Hi.
      * subst i. unfold exact.
        rewrite !bool_decide_eq_true_2 by (done || lia). reflexivity.
      * destruct (decide (i < n)%nat).
        -- rewrite !(bool_decide_eq_true_2 (i < _)%nat) by lia. reflexivity.
        -- rewrite !(bool_decide_eq_false_2 (i < _)%nat) by lia. reflexivity.
    + rewrite length_array_set. lia.
    + intros L. cbn [count_upto]. unfold exact_with at 2, exact.
      rewrite (bool_decide_eq_true_2 _ Hex), andb_true_r.
      destruct (decide (g !! n = Some L)) as [HL|HL].
      * rewrite HL, lookup_insert_eq, Hcnt, bool_decide_eq_true_2 by done.
        assert (occurrences L s ≠ 0) as Hocc.
        { rewrite occurrences_zero_iff. intros Hnot. apply Hnot.
          apply list_elem_of_lookup. exists n. congruence. }
        rewrite !decide_False by done. simpl. do 2 f_equal. lia.
      * rewrite lookup_insert_ne, Hcnt, bool_decide_eq_false_2, Z.add_0_r; try done.
        destruct (g !! n) as [c|]; simpl; [congruence|].
        intros H; injection H as _ H; discriminate.
    + destruct (g !! n) as [c|] eqn:Hg.
      * rewrite lookup_insert_ne by apply prop_key_letter_undefined. done.
      * rewrite lookup_insert_eq. right.
        destruct Hund as [-> | ->]; reflexivity.
  - (* no exact match at [n] *)
    (split; [|split; [|split]]); cbn [fst snd].
    + intros i. rewrite Hget. unfold exact in *.
      destruct (decide (i = n)) as [->|Hi].
      * rewrite (bool_decide_eq_false_2 _ Hex), !andb_false_r. reflexivity.
      * destruct (decide (i < n)%nat).
        -- rewrite !(bool_decide_eq_true_2 (i < _)%nat) by lia. reflexivity.
        -- rewrite !(bool_decide_eq_false_2 (i < _)%nat) by lia. reflexivity.
    + lia.
    + intros L. rewrite Hcnt. cbn [count_upto].
      replace (exact_with L g s n) with false; [by rewrite Z.add_0_r|].
      unfold exact_with, exact.
      by rewrite (bool_decide_eq_false_2 _ Hex), andb_false_r.
    + done.
Qed.

Lemma firstPass_inv_loop (g s : list ascii) (n : nat) :
  firstPass_inv g s n
    (for_loop n (firstPass_body g s) ([], countLetters s)).
Proof.
  induction n as [|n IH].
  - apply firstPass_inv_init.
  - rewrite for_loop_S. apply firstPass_inv_step, IH.
Qed.

(** ** Second pass *)

Lemma secondPass_inv_init (g s : list ascii) :
  secondPass_inv g s 0 (firstPass g s).
Proof.
  destruct (firstPass_inv_loop g s 5) as (Hget & Hlen & Hcnt & Hund).
  fold (firstPass g s) in *.
  (split; [|split; [|split]]).
  - intros i. rewrite Hget. reflexivity.
  - lia.
  - intros L. rewrite Hcnt.
    pose proof (remaining_nonneg L g s) as Hrem.
    pose proof (count_upto_nonneg (exact_with L g s) 5).
    change (count_upto (misplaced_with L g s) 0) with 0.
    unfold remaining in *. case_decide as Hocc; cbn [numval]; lia.
  - done.
Qed.

Lemma misplaced_with_other (L : ascii) (g s : list ascii) (n : nat) :
  g !! n ≠ Some L → misplaced_with L g s n = false.
Proof. intros H. unfold misplaced_with. by rewrite bool_decide_eq_false_2. Qed.

Lemma misplaced_with_exact (L : ascii) (g s : list ascii) (n : nat) :
  exact g s n = true → misplaced_with L g s n = false.
Proof. intros H. unfold misplaced_with. by rewrite H, andb_false_r. Qed.

Lemma misplaced_with_here (L : ascii) (g s : list ascii) (n : nat) :
  g !! n = Some L → exact g s n = false → misplaced_with L g s n = true.
Proof. intros H1 H2. unfold misplaced_with. by rewrite H2, bool_decide_eq_true_2. Qed.

Lemma secondPass_inv_step (g s : list ascii) (n : nat) (st : ScoreState) :
  (n < 5)%nat →
  secondPass_inv g s n st →
  secondPass_inv g s (S n) (secondPass_body g n st).
Proof.
  destruct st as [r o]. intros Hn (Hget & Hlen & Hcnt & Hund).
  unfold secondPass_body. cbn [fst snd] in *.
  pose proof (Hget n) as Hgn.
  rewrite bool_decide_eq_false_2, bool_decide_eq_true_2 in Hgn by lia.
  cbn [andb] in Hgn.
  assert (∀ c : Classification, ∀ r' : list (option Classification),
    c = classify g s n →
    (∀ i, array_get r' i = if decide (i = n) then Some c else array_get r i) →
    ∀ i, array_get r' i
         = if bool_decide (i < S n)%nat then Some (classify g s i)
           else if bool_decide (i < 5)%nat && exact g s i then Some correct
           else None) as Hresult.
  { intros c r' -> Hr' i. rewrite Hr', Hget. case_decide as Hi.
    - subst i. by rewrite bool_decide_eq_true_2 by lia.
    - destruct (decide (i < n)%nat).
      + by rewrite (bool_decide_eq_true_2 (i < n)%nat),
             (bool_decide_eq_true_2 (i < S n)%nat) by lia.
      + by rewrite (bool_decide_eq_false_2 (i < n)%nat),
             (bool_decide_eq_false_2 (i < S n)%nat) by lia. }
  destruct (exact g s n) eqn:Hex.
  - (* already marked correct: [continue] *)
    rewrite decide_True by done.
    (split; [|split; [|split]]); cbn [fst snd].
    + apply (Hresult correct); [unfold classify; by rewrite Hex|].
      intros i. case_decide; [by subst i|done].
    + apply array_get_Some_lt in Hgn. lia.
    + intros L. rewrite Hcnt. cbn [count_upto].
      by rewrite misplaced_with_exact, Z.add_0_r.
    + done.
  - rewrite decide_False by (rewrite Hgn; discriminate).
    rewrite js_gt0_numval.
    destruct (g !! n) as [c|] eqn:Hg.
    + (* a letter is guessed at [n] *)
      pose proof (Hcnt c) as Hc.
      pose proof (count_upto_nonneg (misplaced_with c g s) n) as Hmis.
      assert (∀ L, L ≠ c → misplaced_with L g s n = false) as Hother.
      { intros L HL. apply misplaced_with_other. congruence. }
      case_bool_decide as Hpos.
      * (split; [|split; [|split]]); cbn [fst snd].
        -- apply (Hresult present); [|intros i; apply array_get_set].
           unfold classify. rewrite Hex, Hg, bool_decide_eq_true_2; [done|lia].
        -- rewrite length_array_set. lia.
        -- intros L. cbn [count_upto]. destruct (decide (L = c)) as [->|HL].
           ++ rewrite lookup_insert_eq, numval_decr
                by (rewrite js_gt0_numval; by apply bool_decide_eq_true_2).
              rewrite misplaced_with_here by done. lia.
           ++ rewrite lookup_insert_ne by (intros ?%prop_key_letter_inj; done).
              rewrite Hcnt, Hother by done. by rewrite Z.add_0_r.
        -- rewrite lookup_insert_ne by apply prop_key_letter_undefined. done.
      * (split; [|split; [|split]]); cbn [fst snd].
        -- apply (Hresult absent); [|intros i; apply array_get_set].
           unfold classify. rewrite Hex, Hg, bool_decide_eq_false_2; [done|lia].
        -- rewrite length_array_set. lia.
        -- intros L. cbn [count_upto]. rewrite Hcnt.
           destruct (decide (L = c)) as [->|HL].
           ++ rewrite misplaced_with_here by done. lia.
           ++ rewrite Hother by done. by rewrite Z.add_0_r.
        -- done.
    + (* the guess has no letter at [n]: the key is "undefined" *)
      rewrite bool_decide_eq_false_2
        by (destruct Hund as [-> | ->]; simpl; lia).
      (split; [|split; [|split]]); cbn [fst snd].
      * apply (Hresult absent); [|intros i; apply array_get_set].
        unfold classify. by rewrite Hex, Hg.
      * rewrite length_array_set. lia.
      * intros L. cbn [count_upto]. rewrite Hcnt.
        rewrite misplaced_with_other by (rewrite Hg; discriminate).
        by rewrite Z.add_0_r.
      * done.
Qed.

Lemma secondPass_inv_loop (g s : list ascii) (n : nat) :
  (n ≤ 5)%nat →
  secondPass_inv g s n (for_loop n (secondPass_body g) (firstPass g s)).
Proof.
  induction n as [|n IH]; intros Hn.
  - apply secondPass_inv_init.
  - rewrite for_loop_S. apply secondPass_inv_step; [lia|]. apply IH. lia.
Qed.

(** The scorer computes exactly [classify] at each of the five positions. *)
Lemma score_classify (g s : list ascii) :
  score g s = (λ i, Some (classify g s i)) <$> seq 0 5.
Proof.
  unfold score, secondPass.
  destruct (secondPass_inv_loop g s 5 (Nat.le_refl 5)) as (Hget & Hlen & _ & _).
  set (r := (for_loop 5 (secondPass_body g) (firstPass g s)).1) in *.
  apply list_eq_same_length with 5%nat; [reflexivity|lia|].
  intros i x y Hi Hx Hy.
  specialize (Hget i). rewrite bool_decide_eq_true_2 in Hget by done.
  unfold array_get in Hget. rewrite Hx in Hget. subst x.
  rewrite list_lookup_fmap, lookup_seq_lt in Hy by done.
  simpl in Hy. congruence.
Qed.

(** ** Strings and the game monad *)

Lemma length_split (w : string) : length (split w) = String.length w.
Proof. induction w as [|c w IH]; simpl; [reflexivity|]. by f_equal. Qed.

Lemma length_toUpperCase (w : string) :
  String.length (toUpperCase w) = String.length w.
Proof. induction w as [|c w IH]; simpl; [reflexivity|]. by f_equal. Qed.

Lemma split_inj (w1 w2 : string) : split w1 = split w2 → w1 = w2.
Proof.
  intros H. rewrite <- (string_of_list_ascii_of_string w1),
    <- (string_of_list_ascii_of_string w2). unfold split in H. by rewrite H.
Qed.

Lemma upper_char_idemp (c : ascii) : upper_char (upper_char c) = upper_char c.
Proof. destruct c as [[] [] [] [] [] [] [] []]; reflexivity. Qed.

Lemma toUpperCase_idemp (w : string) :
  toUpperCase (toUpperCase w) = toUpperCase w.
Proof.
  induction w as [|c w IH]; simpl; [reflexivity|].
  by rewrite upper_char_idemp, IH.
Qed.

Lemma processGuess_eval (guess : string) (st : GameState) :
  evalGame (processGuess guess) st
  = score (split (toUpperCase guess)) (split (secretWord st)).
Proof. reflexivity. Qed.

Lemma processGuess_exec (guess : string) (st : GameState) :
  execGame (processGuess guess) st = st.
Proof. reflexivity. Qed.

Lemma checkWinCondition_eval (guess : string) (st : GameState) :
  evalGame (checkWinCondition guess) st
  = bool_decide (toUpperCase guess = secretWord st).
Proof. reflexivity. Qed.

(** ** Consequences of the characterisation *)

Lemma score_length (g s : list ascii) : length (score g s) = 5%nat.
Proof. rewrite score_classify. reflexivity. Qed.

Lemma score_lookup (g s : list ascii) (i : nat) :
  (i < 5)%nat → score g s !! i = Some (Some (classify g s i)).
Proof.
  intros Hi. rewrite score_classify, list_lookup_fmap, lookup_seq_lt by done.
  reflexivity.
Qed.

Lemma score_get (g s : list ascii) (i : nat) :
  (i < 5)%nat → array_get (score g s) i = Some (classify g s i).
Proof. intros Hi. unfold array_get. by rewrite score_lookup. Qed.

Lemma classify_correct_iff (g s : list ascii) (i : nat) :
  classify g s i = correct ↔ g !! i = s !! i.
Proof.
  unfold classify, exact. case_bool_decide as Hex.
  - done.
  - split; [|done]. destruct (g !! i); [case_bool_decide|]; discriminate.
Qed.

(** A position counts for [L] exactly when it is an exact match on [L] or
    one of the first [remaining] misplaced copies of [L]. *)
Lemma hit_with_score (L : ascii) (g s : list ascii) (i : nat) :
  (i < 5)%nat →
  hit_with L g (score g s) i
  = exact_with L g s i
    || (misplaced_with L g s i
        && bool_decide (count_upto (misplaced_with L g s) i < remaining L g s)).
Proof.
  intros Hi. unfold hit_with. rewrite score_get by done. unfold classify.
  destruct (decide (g !! i = Some L)) as [HL|HL].
  - assert (exact_with L g s i = exact g s i) as ->
      by (unfold exact_with; by rewrite bool_decide_eq_true_2).
    assert (misplaced_with L g s i = negb (exact g s i)) as ->
      by (unfold misplaced_with; by rewrite bool_decide_eq_true_2).
    rewrite (bool_decide_eq_true_2 _ HL), HL. cbn [andb].
    destruct (exact g s i); cbn [negb andb orb]; [reflexivity|].
    destruct (bool_decide (count_upto _ _ < _)); reflexivity.
  - assert (exact_with L g s i = false) as ->
      by (unfold exact_with; by rewrite bool_decide_eq_false_2).
    rewrite misplaced_with_other, (bool_decide_eq_false_2 _ HL) by done.
    reflexivity.
Qed.

Lemma score_letter_count (L : ascii) (g s : list ascii) :
  count_upto (hit_with L g (score g s)) 5 ≤ occurrences L s.
Proof.
  rewrite (count_upto_split _ (exact_with L g s)
    (λ i, misplaced_with L g s i
          && bool_decide (count_upto (misplaced_with L g s) i < remaining L g s))).
  - rewrite count_upto_first.
    pose proof (remaining_nonneg L g s). unfold remaining in *. lia.
  - intros i Hi. by apply hit_with_score.
  - intros i _. unfold exact_with, misplaced_with.
    destruct (bool_decide (g !! i = Some L)), (exact g s i); reflexivity.
Qed.

Lemma score_all_correct_iff (g s : list ascii) :
  length g = 5%nat → length s = 5%nat →
  score g s = replicate 5 (Some correct) ↔ g = s.
Proof.
  intros Hg Hs. split.
  - intros Hall. apply list_eq_same_length with 5%nat; [done..|].
    intros i x y Hi Hx Hy.
    pose proof (score_lookup g s i Hi) as Hl.
    rewrite Hall, lookup_replicate_2 in Hl by done.
    assert (classify g s i = correct) as Hc by congruence.
    apply classify_correct_iff in Hc. congruence.
  - intros ->. rewrite score_classify.
    apply list_eq_same_length with 5%nat; [done..|].
    intros i x y Hi Hx Hy.
    rewrite list_lookup_fmap, lookup_seq_lt in Hx by done.
    rewrite lookup_replicate_2 in Hy by done. simpl in Hx.
    assert (classify s s i = correct) as Hc by by apply classify_correct_iff.
    congruence.
Qed.

(** ** Claims *)

(** C1. For every secret and every guess (in particular five-letter ones)
    and every letter [L], the number of positions that [processGuess]
    classifies [correct] or [present] and whose guessed letter is [L] is at
    most the number of occurrences of [L] in the secret word. *)
Theorem processGuess_letter_count (guess : string) (st : GameState) (L : ascii) :
  count_upto
    (hit_with L (split (toUpperCase guess)) (evalGame (processGuess guess) st))
    5
  ≤ occurrences L (split (secretWord st)).
Proof. rewrite processGuess_eval. apply score_letter_count. Qed.

(** C2. For a five-letter secret and a five-letter guess, [processGuess]
    returns all [correct] if and only if [checkWinCondition] returns true,
    that is, if and only if the upper-cased guess equals the stored secret
    word. *)
Theorem processGuess_all_correct_iff_win (guess : string) (st : GameState) :
  String.length guess = 5%nat →
  String.length (secretWord st) = 5%nat →
  (evalGame (processGuess guess) st = replicate 5 (Some correct)
   ↔ evalGame (checkWinCondition guess) st = true)
  ∧ (evalGame (checkWinCondition guess) st = true
     ↔ toUpperCase guess = secretWord st).
Proof.
  intros Hg Hs. rewrite processGuess_eval, checkWinCondition_eval.
  rewrite bool_decide_eq_true. split; [|done].
  rewrite score_all_correct_iff
    by (rewrite length_split, ?length_toUpperCase; done).
  split; [apply split_inj|by intros ->].
Qed.

Lemma processGuess_all_correct_iff_win_witness :
  (evalGame (processGuess "crane") (withSecret "CRANE")
   = replicate 5 (Some correct)
   ↔ evalGame (checkWinCondition "crane") (withSecret "CRANE") = true)
  ∧ (evalGame (checkWinCondition "crane") (withSecret "CRANE") = true
     ↔ toUpperCase "crane" = secretWord (withSecret "CRANE")).
Proof.
  apply (processGuess_all_correct_iff_win "crane" (withSecret "CRANE"));
    reflexivity.
Defined.

Lemma count_upto_le (P : nat → bool) (i j : nat) :
  (i ≤ j)%nat → count_upto P i ≤ count_upto P j.
Proof.
  induction 1 as [|j _ IH]; [lia|]. simpl. destruct (P j); lia.
Qed.

Lemma classify_misplaced (L : ascii) (g s : list ascii) (i : nat) :
  g !! i = Some L → g !! i ≠ s !! i →
  classify g s i
  = if bool_decide (count_upto (misplaced_with L g s) i < remaining L g s)
    then present else absent.
Proof.
  intros HL Hne. unfold classify, exact.
  by rewrite (bool_decide_eq_false_2 _ Hne), HL.
Qed.

(** C3. Both passes visit the positions in ascending order, so a position
    that is not an exact match and holds the letter [L] is [present] exactly
    when fewer misplaced copies of [L] stand to its left than copies of [L]
    remain in the secret after the exact matches, and [absent] otherwise:
    among the misplaced copies of a letter the leftmost ones are [present]
    and the others [absent]. The words ALLOY and LLAMA, scored either way
    round, follow this rule. *)
Theorem processGuess_leftmost_priority :
  (∀ (guess : string) (st : GameState) (i : nat) (L : ascii),
     let g := split (toUpperCase guess) in
     let s := split (secretWord st) in
     (i < 5)%nat → g !! i = Some L → g !! i ≠ s !! i →
     array_get (evalGame (processGuess guess) st) i
     = Some (if bool_decide
                  (count_upto (misplaced_with L g s) i < remaining L g s)
             then present else absent)
     ∧ ∀ j, (i < j < 5)%nat → g !! j = Some L → g !! j ≠ s !! j →
            array_get (evalGame (processGuess guess) st) j = Some present →
            array_get (evalGame (processGuess guess) st) i = Some present)
  ∧ evalGame (processGuess "ALLOY") (withSecret "LLAMA")
    = [Some present; Some correct; Some present; Some absent; Some absent]
  ∧ evalGame (processGuess "LLAMA") (withSecret "ALLOY")
    = [Some present; Some correct; Some present; Some absent; Some absent].
Proof.
  split; [|split; vm_compute; reflexivity].
  intros guess st i L g s Hi HL Hne. rewrite processGuess_eval. fold g s.
  rewrite score_get, (classify_misplaced L) by done. split; [done|].
  intros j Hj HLj Hnej. rewrite score_get, (classify_misplaced L) by (done || lia).
  pose proof (count_upto_le (misplaced_with L g s) i j) as Hle.
  repeat case_bool_decide; (done || lia).
Qed.

Lemma processGuess_leftmost_priority_witness :
  array_get (evalGame (processGuess "LLAMA") (withSecret "ALLOY")) 4
  = Some (if bool_decide
               (count_upto
                  (misplaced_with "A" (split (toUpperCase "LLAMA"))
                     (split (secretWord (withSecret "ALLOY")))) 4
                < remaining "A" (split (toUpperCase "LLAMA"))
                    (split (secretWord (withSecret "ALLOY"))))
          then present else absent).
Proof.
  apply (proj1 processGuess_leftmost_priority "LLAMA" (withSecret "ALLOY")
           4%nat "A"%char); [lia|reflexivity|discriminate].
Defined.

(** ** Worked games *)

(** C4, as the code scores it: with secret SPEED and guess ERASE both
    copies of E are [present], because SPEED holds two E's and neither is
    taken by an exact match. *)
Theorem processGuess_SPEED_ERASE :
  evalGame (processGuess "ERASE") (withSecret "SPEED")
  = [Some present; Some absent; Some absent; Some present; Some present].
Proof. vm_compute. reflexivity. Qed.

(** The array expected by the claim is not the one returned. *)
Lemma processGuess_SPEED_ERASE_not_absent :
  evalGame (processGuess "ERASE") (withSecret "SPEED")
  ≠ [Some present; Some absent; Some absent; Some present; Some absent].
Proof. vm_compute. discriminate. Qed.

(** C5, as the code scores it: with secret CRANE and guess TRACE the A
    stands at the same position in both words and is [correct]. *)
Theorem processGuess_CRANE_TRACE :
  evalGame (processGuess "TRACE") (withSecret "CRANE")
  = [Some absent; Some correct; Some correct; Some present; Some correct].
Proof. vm_compute. reflexivity. Qed.

(** The array expected by the claim is not the one returned. *)
Lemma processGuess_CRANE_TRACE_not_present :
  evalGame (processGuess "TRACE") (withSecret "CRANE")
  ≠ [Some absent; Some correct; Some present; Some present; Some correct].
Proof. vm_compute. discriminate. Qed.

(** ** Letters that are not in the secret *)

(** A letter that does not occur in the secret has no property in
    [secretLetterCount] after the first pass... *)
Lemma firstPass_lookup_missing (g s : list ascii) (c : ascii) :
  c ∉ s → (firstPass g s).2 !! prop_key (Some c) = None.
Proof.
  intros Hc. destruct (firstPass_inv_loop g s 5) as (_ & _ & Hcnt & _).
  fold (firstPass g s) in Hcnt. rewrite Hcnt.
  apply occurrences_zero_iff in Hc. by rewrite decide_True.
Qed.

(** ... and the second pass never creates a property: it only assigns to
    one it has just read as a positive number. *)
Lemma secondPass_body_lookup_None (g : list ascii) (i : nat)
    (st : ScoreState) (k : string) :
  st.2 !! k = None → (secondPass_body g i st).2 !! k = None.
Proof.
  destruct st as [r o]. unfold secondPass_body. cbn [snd]. intros Hk.
  case_decide; [done|].
  destruct (js_gt0 (o !! prop_key (g !! i))) eqn:Hgt; cbn [snd]; [|done].
  destruct (decide (prop_key (g !! i) = k)) as [<-|Hne].
  - rewrite Hk in Hgt. discriminate.
  - by rewrite lookup_insert_ne.
Qed.

Lemma secondPass_lookup_missing (g s : list ascii) (c : ascii) (n : nat) :
  c ∉ s →
  (for_loop n (secondPass_body g) (firstPass g s)).2 !! prop_key (Some c)
  = None.
Proof.
  intros Hc. induction n as [|n IH].
  - by apply firstPass_lookup_missing.
  - rewrite for_loop_S. by apply secondPass_body_lookup_None.
Qed.

Lemma classify_missing (g s : list ascii) (i : nat) (c : ascii) :
  g !! i = Some c → c ∉ s → classify g s i = absent.
Proof.
  intros Hg Hc.
  assert (g !! i ≠ s !! i) as Hne.
  { intros Heq. apply Hc, list_elem_of_lookup. exists i. congruence. }
  rewrite (classify_misplaced c) by done.
  apply occurrences_zero_iff in Hc.
  pose proof (count_upto_nonneg (exact_with c g s) 5).
  pose proof (count_upto_nonneg (misplaced_with c g s) i).
  unfold remaining. rewrite bool_decide_eq_false_2; [done|lia].
Qed.

(** C6. When a five-letter guess, once upper-cased, has no letter in common
    with the five-letter secret, all five positions are [absent]. *)
Theorem processGuess_no_shared_letters (guess : string) (st : GameState) :
  String.length guess = 5%nat →
  String.length (secretWord st) = 5%nat →
  (∀ c, c ∈ split (toUpperCase guess) → c ∉ split (secretWord st)) →
  evalGame (processGuess guess) st = replicate 5 (Some absent).
Proof.
  intros Hg Hs Hdisj. rewrite processGuess_eval.
  set (g := split (toUpperCase guess)) in *.
  set (s := split (secretWord st)) in *.
  assert (length g = 5%nat) as Hlen
    by (unfold g; by rewrite length_split, length_toUpperCase).
  apply list_eq_same_length with 5%nat; [done|apply score_length|].
  intros i x y Hi Hx Hy. rewrite score_lookup in Hx by done.
  rewrite lookup_replicate_2 in Hy by done.
  destruct (lookup_lt_is_Some_2 g i) as [c Hc]; [lia|].
  rewrite (classify_missing g s i c) in Hx; [congruence|done|].
  apply Hdisj, list_elem_of_lookup. by exists i.
Qed.

Lemma processGuess_no_shared_letters_witness :
  evalGame (processGuess "build") (withSecret "CRANE")
  = replicate 5 (Some absent).
Proof.
  apply (processGuess_no_shared_letters "build" (withSecret "CRANE"));
    [reflexivity|reflexivity|].
  intros c Hc. vm_compute in Hc. intros Hs. vm_compute in Hs.
  change (c ∈ ["B"; "U"; "I"; "L"; "D"]%char) in Hc.
  change (c ∈ ["C"; "R"; "A"; "N"; "E"]%char) in Hs.
  repeat match goal with
         | H : _ ∈ _ :: _ |- _ => apply elem_of_cons in H; destruct H as [H|H]
         | H : _ ∈ [] |- _ => by apply elem_of_nil in H
         end; congruence.
Defined.

(** ** Malformed input *)

Lemma isValidInput_iff (guess : string) :
  isValidInput guess = true
  ↔ String.length guess = 5%nat ∧ ∀ c, c ∈ split guess → is_alpha c = true.
Proof.
  unfold isValidInput, test_alpha_plus.
  destruct (String.length guess =? 5)%nat eqn:Hlen; cbn [negb].
  - apply Nat.eqb_eq in Hlen. pose proof (length_split guess) as Hsp.
    destruct (split guess) as [|c cs] eqn:Hs; [simpl in Hsp; lia|].
    rewrite <- Hs. clear Hsp Hs.
    destruct (forallb is_alpha (split guess)) eqn:Hall; cbn [negb].
    + split; [|done]. intros _. split; [done|].
      intros x Hx. rewrite forallb_forall in Hall.
      by apply Hall, list_elem_of_In.
    + split; [done|]. intros [_ H].
      rewrite <- Hall. apply forallb_forall. intros x Hx.
      by apply H, list_elem_of_In.
  - apply Nat.eqb_neq in Hlen. split; [done|]. intros [? _]. done.
Qed.

(** C7, as the code behaves: [processGuess] checks nothing and does not
    fail. Whatever the guess and the stored secret, of any length and
    content, it returns an array of exactly five classifications. It is the
    caller's [isValidInput] that turns down a guess unless it has exactly
    five characters, all of them letters. *)
Theorem processGuess_no_validation (guess : string) (st : GameState) :
  length (evalGame (processGuess guess) st) = 5%nat
  ∧ (∀ i, (i < 5)%nat →
          ∃ c, evalGame (processGuess guess) st !! i = Some (Some c))
  ∧ (isValidInput guess = true
     ↔ String.length guess = 5%nat
       ∧ ∀ c, c ∈ split guess → is_alpha c = true).
Proof.
  rewrite processGuess_eval. split; [apply score_length|]. split.
  - intros i Hi. eexists. by apply score_lookup.
  - apply isValidInput_iff.
Qed.

Lemma processGuess_no_validation_witness :
  ∃ c, evalGame (processGuess "AB") (withSecret "CRANE") !! 4%nat
       = Some (Some c).
Proof.
  apply (proj1 (proj2 (processGuess_no_validation "AB" (withSecret "CRANE")))
           4%nat). lia.
Defined.

(** Malformed arguments are scored all the same: a two-letter guess, a
    six-letter guess, a guess of digits and a two-letter secret each get
    five classifications. *)
Lemma processGuess_malformed_scored :
  isValidInput "AB" = false
  ∧ evalGame (processGuess "AB") (withSecret "CRANE")
    = [Some present; Some absent; Some absent; Some absent; Some absent]
  ∧ isValidInput "CRANES" = false
  ∧ evalGame (processGuess "CRANES") (withSecret "CRANE")
    = [Some correct; Some correct; Some correct; Some correct; Some correct]
  ∧ isValidInput "12345" = false
  ∧ evalGame (processGuess "12345") (withSecret "12345")
    = [Some correct; Some correct; Some correct; Some correct; Some correct]
  ∧ evalGame (processGuess "ABOUT") (withSecret "AB")
    = [Some correct; Some correct; Some absent; Some absent; Some absent].
Proof. vm_compute. repeat split. Qed.

(** ** Purity *)

(** C9. [processGuess] is deterministic and leaves the game state alone:
    two game states holding the same secret word give the same result for
    the same guess, the state after the call is the state before it, and a
    second call returns what the first one returned. *)
Theorem processGuess_deterministic (guess : string) (st1 st2 : GameState) :
  secretWord st1 = secretWord st2 →
  evalGame (processGuess guess) st1 = evalGame (processGuess guess) st2
  ∧ execGame (processGuess guess) st1 = st1
  ∧ secretWord (execGame (processGuess guess) st1) = secretWord st1
  ∧ evalGame (processGuess guess) (execGame (processGuess guess) st1)
    = evalGame (processGuess guess) st1.
Proof.
  intros Hs. rewrite !processGuess_exec, !processGuess_eval, Hs. done.
Qed.

Lemma processGuess_deterministic_witness :
  let st1 := withSecret "CRANE" in
  let st2 := {| secretWord := "CRANE";
                guesses := [("TRACE"%string, [Some absent])];
                currentRow := 1%nat; maxGuesses := 6%nat; gameOver := false |} in
  evalGame (processGuess "trace") st1 = evalGame (processGuess "trace") st2
  ∧ execGame (processGuess "trace") st1 = st1
  ∧ secretWord (execGame (processGuess "trace") st1) = secretWord st1
  ∧ evalGame (processGuess "trace") (execGame (processGuess "trace") st1)
    = evalGame (processGuess "trace") st1.
Proof.
  intros st1 st2. apply (processGuess_deterministic "trace" st1 st2).
  reflexivity.
Defined.

(** ** Totality *)

(** C10. [processGuess] always returns: the result has exactly five
    elements, each of them [correct], [present] or [absent]. A guessed
    letter that does not occur in the secret has no entry in
    [secretLetterCount] at any point of the second pass; the read yields
    [undefined], the test [> 0] is false, and the position is [absent]. *)
Theorem processGuess_total (guess : string) (st : GameState) :
  let g := split (toUpperCase guess) in
  let s := split (secretWord st) in
  length (evalGame (processGuess guess) st) = 5%nat
  ∧ Forall (λ x, x = Some correct ∨ x = Some present ∨ x = Some absent)
      (evalGame (processGuess guess) st)
  ∧ ∀ (i : nat) (c : ascii),
      (i < 5)%nat → g !! i = Some c → c ∉ s →
      (∀ n, (for_loop n (secondPass_body g) (firstPass g s)).2
              !! prop_key (Some c) = None)
      ∧ js_gt0 (None : option jsnum) = false
      ∧ evalGame (processGuess guess) st !! i = Some (Some absent).
Proof.
  intros g s. rewrite processGuess_eval. fold g s.
  split; [apply score_length|]. split.
  - rewrite score_classify. apply Forall_fmap, Forall_forall.
    intros i _. simpl. destruct (classify g s i); auto.
  - intros i c Hi Hg Hc. split; [|split; [reflexivity|]].
    + intros n. by apply secondPass_lookup_missing.
    + by rewrite score_lookup, (classify_missing g s i c).
Qed.

Lemma processGuess_total_witness :
  evalGame (processGuess "TRACE") (withSecret "CRANE") !! 0%nat
  = Some (Some absent).
Proof.
  apply (proj2 (proj2 (processGuess_total "TRACE" (withSecret "CRANE")))
           0%nat "T"%char); [lia|reflexivity|].
  intros H. vm_compute in H.
  change ("T"%char ∈ ["C"; "R"; "A"; "N"; "E"]%char) in H.
  repeat match goal with
         | H : _ ∈ _ :: _ |- _ => apply elem_of_cons in H; destruct H as [H|H]
         | H : _ ∈ [] |- _ => by apply elem_of_nil in H
         end; discriminate.
Defined.

(** ** Letters and case *)

Lemma split_toUpperCase (w : string) :
  split (toUpperCase w) = map upper_char (split w).
Proof. induction w as [|c w IH]; simpl; [reflexivity|]. by f_equal. Qed.

Lemma split_string_of_list (cs : list ascii) :
  split (string_of_list_ascii cs) = cs.
Proof. apply list_ascii_of_string_of_list_ascii. Qed.

Lemma toUpperCase_of_list (cs : list ascii) :
  toUpperCase (string_of_list_ascii cs)
  = string_of_list_ascii (map upper_char cs).
Proof. induction cs as [|c cs IH]; simpl; [reflexivity|]. by f_equal. Qed.

Lemma toUpperCase_app (w1 w2 : string) :
  toUpperCase (String.append w1 w2)
  = String.append (toUpperCase w1) (toUpperCase w2).
Proof.
  induction w1 as [|c w1 IH]; [reflexivity|].
  change (String (upper_char c) (toUpperCase (String.append w1 w2))
          = String (upper_char c)
              (String.append (toUpperCase w1) (toUpperCase w2))).
  by rewrite IH.
Qed.

Lemma is_alpha_upper_char (c : ascii) : is_alpha (upper_char c) = is_alpha c.
Proof. destruct c as [[] [] [] [] [] [] [] []]; reflexivity. Qed.

Lemma is_upper_upper_char (c : ascii) : is_upper (upper_char c) = is_alpha c.
Proof. destruct c as [[] [] [] [] [] [] [] []]; reflexivity. Qed.

Lemma is_upper_fixed (c : ascii) : is_upper c = true → upper_char c = c.
Proof.
  destruct c as [[] [] [] [] [] [] [] []]; intros H;
    first [reflexivity | vm_compute in H; discriminate H].
Qed.

Lemma is_upper_alpha (c : ascii) : is_upper c = true → is_alpha c = true.
Proof.
  destruct c as [[] [] [] [] [] [] [] []]; intros H;
    first [reflexivity | vm_compute in H; discriminate H].
Qed.

Lemma upper_lower_char (c : ascii) : upper_char (lower_char c) = upper_char c.
Proof. destruct c as [[] [] [] [] [] [] [] []]; reflexivity. Qed.

Lemma lower_upper_char (c : ascii) : lower_char (upper_char c) = lower_char c.
Proof. destruct c as [[] [] [] [] [] [] [] []]; reflexivity. Qed.

Lemma toUpperCase_toLowerCase (w : string) :
  toUpperCase (toLowerCase w) = toUpperCase w.
Proof.
  induction w as [|c w IH]; simpl; [reflexivity|].
  by rewrite upper_lower_char, IH.
Qed.

Lemma toLowerCase_toUpperCase (w : string) :
  toLowerCase (toUpperCase w) = toLowerCase w.
Proof.
  induction w as [|c w IH]; simpl; [reflexivity|].
  by rewrite lower_upper_char, IH.
Qed.

Lemma length_toLowerCase (w : string) :
  String.length (toLowerCase w) = String.length w.
Proof. induction w as [|c w IH]; simpl; [reflexivity|]. by f_equal. Qed.

Lemma forallb_map_upper (cs : list ascii) :
  forallb is_alpha (map upper_char cs) = forallb is_alpha cs.
Proof.
  induction cs as [|c cs IH]; simpl; [reflexivity|].
  by rewrite is_alpha_upper_char, IH.
Qed.

Lemma test_alpha_plus_upper (w : string) :
  test_alpha_plus (toUpperCase w) = test_alpha_plus w.
Proof.
  unfold test_alpha_plus. rewrite split_toUpperCase.
  destruct (split w) as [|c cs]; [reflexivity|].
  apply (forallb_map_upper (c :: cs)).
Qed.

Lemma isValidInput_toUpperCase (guess : string) :
  isValidInput (toUpperCase guess) = isValidInput guess.
Proof.
  unfold isValidInput. by rewrite length_toUpperCase, test_alpha_plus_upper.
Qed.

(** A word made of [A]-[Z] only is its own upper case. *)
Lemma toUpperCase_fixed (w : string) :
  (∀ c, c ∈ split w → is_upper c = true) → toUpperCase w = w.
Proof.
  induction w as [|c w IH]; simpl; intros H; [reflexivity|].
  rewrite is_upper_fixed by (apply H; left).
  rewrite IH; [reflexivity|]. intros x Hx. apply H. by right.
Qed.

Lemma isValidInput_upper_letters (guess : string) (c : ascii) :
  isValidInput guess = true → c ∈ split (toUpperCase guess) →
  is_upper c = true.
Proof.
  intros [_ Hal]%isValidInput_iff. rewrite split_toUpperCase.
  intros (x & -> & Hx)%list_elem_of_fmap.
  rewrite is_upper_upper_char. by apply Hal.
Qed.

(** ** Input validation, further *)

(** X1. A guess that [isValidInput] accepts is still accepted after
    upper-casing or lower-casing it, and once upper-cased it is exactly
    five code units, all in [A]-[Z]. *)
Theorem isValidInput_accepts_five_letters (guess : string) :
  isValidInput guess = true →
  isValidInput (toUpperCase guess) = true
  ∧ isValidInput (toLowerCase guess) = true
  ∧ String.length (toUpperCase guess) = 5%nat
  ∧ ∀ c, c ∈ split (toUpperCase guess) → is_upper c = true.
Proof.
  intros Hv. split; [by rewrite isValidInput_toUpperCase|]. split; [|split].
  - by rewrite <- (isValidInput_toUpperCase (toLowerCase guess)),
      toUpperCase_toLowerCase, isValidInput_toUpperCase.
  - rewrite length_toUpperCase. by apply isValidInput_iff in Hv as [? _].
  - intros c. by apply isValidInput_upper_letters.
Qed.

Lemma isValidInput_accepts_five_letters_witness :
  isValidInput (toUpperCase "crane") = true
  ∧ isValidInput (toLowerCase "crane") = true
  ∧ String.length (toUpperCase "crane") = 5%nat
  ∧ ∀ c, c ∈ split (toUpperCase "crane") → is_upper c = true.
Proof. apply (isValidInput_accepts_five_letters "crane"). reflexivity. Defined.

(** ** The letter boxes *)

Lemma split_sanitizeInput (value : string) :
  split (sanitizeInput value)
  = map upper_char (List.filter is_alpha (split value)).
Proof.
  unfold sanitizeInput. by rewrite split_toUpperCase, split_string_of_list.
Qed.

Lemma sanitizeInput_is_upper (value : string) (c : ascii) :
  c ∈ split (sanitizeInput value) → is_upper c = true.
Proof.
  rewrite split_sanitizeInput. intros (x & -> & Hx)%list_elem_of_fmap.
  rewrite is_upper_upper_char.
  apply list_elem_of_In, filter_In in Hx. tauto.
Qed.

Lemma filter_all (P : ascii → bool) (cs : list ascii) :
  (∀ c, c ∈ cs → P c = true) → List.filter P cs = cs.
Proof.
  induction cs as [|c cs IH]; intros H; simpl; [reflexivity|].
  rewrite (H c) by left. rewrite IH; [reflexivity|].
  intros x Hx. apply H. by right.
Qed.

Lemma length_filter_le (P : ascii → bool) (cs : list ascii) :
  (length (List.filter P cs) ≤ length cs)%nat.
Proof. induction cs as [|c cs IH]; simpl; [lia|]. destruct (P c); simpl; lia. Qed.

(** X2. What the [input] listener leaves in a letter box: only code units
    in [A]-[Z], never more of them than were typed; filtering again changes
    nothing; and the filtered text passes [isValidInput] exactly when it
    is five characters long. *)
Theorem sanitizeInput_letters_only (value : string) :
  (∀ c, c ∈ split (sanitizeInput value) → is_upper c = true)
  ∧ (String.length (sanitizeInput value) ≤ String.length value)%nat
  ∧ sanitizeInput (sanitizeInput value) = sanitizeInput value
  ∧ (isValidInput (sanitizeInput value) = true
     ↔ String.length (sanitizeInput value) = 5%nat).
Proof.
  split; [apply sanitizeInput_is_upper|]. split; [|split].
  - rewrite <- !length_split, split_sanitizeInput, length_map.
    apply length_filter_le.
  - apply split_inj. rewrite (split_sanitizeInput (sanitizeInput value)).
    rewrite filter_all
      by (intros c Hc; by apply is_upper_alpha, (sanitizeInput_is_upper value)).
    rewrite <- split_toUpperCase. f_equal. apply toUpperCase_fixed.
    apply sanitizeInput_is_upper.
  - rewrite isValidInput_iff. split; [by intros [? _]|]. intros Hlen.
    split; [done|]. intros c Hc.
    by apply is_upper_alpha, (sanitizeInput_is_upper value).
Qed.

(** ** The dictionary *)

Lemma split_toLowerCase (w : string) :
  split (toLowerCase w) = map lower_char (split w).
Proof. induction w as [|c w IH]; simpl; [reflexivity|]. by f_equal. Qed.

Lemma is_lower_lower_char (c : ascii) : is_lower (lower_char c) = is_alpha c.
Proof. destruct c as [[] [] [] [] [] [] [] []]; reflexivity. Qed.

(** X3. [validateWord] is called on guesses that [isValidInput] accepted.
    For such a word the dictionary is asked about five code units, all in
    [a]-[z]; upper-casing the word that was sent gives back the upper-cased
    guess; and the answer is the same whatever the letter case in which the
    word is handed to [validateWord]. *)
Theorem validateWord_case_insensitive (service : string → option bool)
    (word : string) :
  isValidInput word = true →
  String.length (toLowerCase word) = 5%nat
  ∧ (∀ c, c ∈ split (toLowerCase word) → is_lower c = true)
  ∧ toUpperCase (toLowerCase word) = toUpperCase word
  ∧ validateWord service (toUpperCase word) = validateWord service word
  ∧ validateWord service (toLowerCase word) = validateWord service word.
Proof.
  intros [Hlen Hal]%isValidInput_iff.
  split; [by rewrite length_toLowerCase|]. split; [|split; [|split]].
  - rewrite split_toLowerCase. intros c (x & -> & Hx)%list_elem_of_fmap.
    rewrite is_lower_lower_char. by apply Hal.
  - apply toUpperCase_toLowerCase.
  - unfold validateWord. by rewrite toLowerCase_toUpperCase.
  - unfold validateWord.
    assert (toLowerCase (toLowerCase word) = toLowerCase word) as ->; [|done].
    rewrite <- (toLowerCase_toUpperCase (toLowerCase word)).
    by rewrite toUpperCase_toLowerCase, toLowerCase_toUpperCase.
Qed.

Lemma validateWord_case_insensitive_witness :
  let service := λ w : string, Some (bool_decide (w = "crane"%string)) in
  String.length (toLowerCase "Crane") = 5%nat
  ∧ (∀ c, c ∈ split (toLowerCase "Crane") → is_lower c = true)
  ∧ toUpperCase (toLowerCase "Crane") = toUpperCase "Crane"
  ∧ validateWord service (toUpperCase "Crane") = validateWord service "Crane"
  ∧ validateWord service (toLowerCase "Crane") = validateWord service "Crane".
Proof.
  intros service. apply (validateWord_case_insensitive service "Crane").
  reflexivity.
Defined.

(** ** The secret word *)

Lemma fetchSecretWord_exec (word : string) (st : GameState) :
  execGame (fetchSecretWord (Some word)) st
  = {| secretWord := toUpperCase word; guesses := guesses st;
       currentRow := currentRow st; maxGuesses := maxGuesses st;
       gameOver := gameOver st |}.
Proof. reflexivity. Qed.

(** X4. [fetchSecretWord]: a failed fetch writes nothing. A successful one
    stores the word in upper case and touches nothing else; the stored
    secret is its own upper case, the function returns it, and from then on
    [checkWinCondition] holds exactly for the guesses equal to the fetched
    word up to letter case. *)
Theorem fetchSecretWord_stores_upper (word guess : string) (st : GameState) :
  let st' := execGame (fetchSecretWord (Some word)) st in
  fetchSecretWord None st = (None, st)
  ∧ evalGame (fetchSecretWord (Some word)) st = Some (secretWord st')
  ∧ secretWord st' = toUpperCase word
  ∧ toUpperCase (secretWord st') = secretWord st'
  ∧ (guesses st', currentRow st', maxGuesses st', gameOver st')
    = (guesses st, currentRow st, maxGuesses st, gameOver st)
  ∧ (evalGame (checkWinCondition guess) st' = true
     ↔ toUpperCase guess = toUpperCase word).
Proof.
  intros st'. subst st'. rewrite fetchSecretWord_exec, checkWinCondition_eval.
  cbn [secretWord guesses currentRow maxGuesses gameOver].
  rewrite toUpperCase_idemp, bool_decide_eq_true. done.
Qed.

(** ** Submitting a guess *)

Lemma concat_empty_cons (x : string) (xs : list string) :
  String.concat EmptyString (x :: xs)
  = String.append x (String.concat EmptyString xs).
Proof.
  destruct xs as [|y ys]; simpl.
  - induction x as [|c x IH]; [reflexivity|].
    change (String c x = String c (String.append x EmptyString)). by f_equal.
  - reflexivity.
Qed.

Lemma toUpperCase_concat (ws : list string) :
  toUpperCase (String.concat EmptyString ws)
  = String.concat EmptyString (map toUpperCase ws).
Proof.
  induction ws as [|w ws IH]; [reflexivity|].
  rewrite map_cons, !concat_empty_cons, toUpperCase_app, IH. reflexivity.
Qed.

Lemma joined_boxes_upper (inputs : list string) :
  toUpperCase
    (String.concat EmptyString (map (λ value, toUpperCase (trim value)) inputs))
  = String.concat EmptyString (map (λ value, toUpperCase (trim value)) inputs).
Proof.
  rewrite toUpperCase_concat, map_map. f_equal. apply map_ext.
  intros value. apply toUpperCase_idemp.
Qed.

Lemma handleSubmit_collect_exec (dom : nat → option (list string))
    (st : GameState) :
  execGame (handleSubmit_collect dom) st = st.
Proof.
  unfold handleSubmit_collect, execGame, mbind, Game_bind, gets, mret, Game_ret.
  destruct (gameOver st); [reflexivity|].
  destruct (dom (currentRow st)) as [inputs|]; [|reflexivity].
  destruct (existsb _ _); [reflexivity|].
  destruct (isValidInput _); reflexivity.
Qed.

Lemma handleSubmit_collect_guess (dom : nat → option (list string))
    (st : GameState) (guess : string) :
  evalGame (handleSubmit_collect dom) st = inr guess →
  gameOver st = false
  ∧ isValidInput guess = true
  ∧ toUpperCase guess = guess
  ∧ ∃ inputs, dom (currentRow st) = Some inputs
      ∧ guess = String.concat EmptyString
                  (map (λ value, toUpperCase (trim value)) inputs)
      ∧ Forall (λ value, toUpperCase (trim value) ≠ EmptyString) inputs.
Proof.
  unfold handleSubmit_collect, evalGame, mbind, Game_bind, gets, mret, Game_ret.
  destruct (gameOver st); [discriminate|].
  destruct (dom (currentRow st)) as [inputs|]; [|discriminate].
  destruct (existsb _ _) eqn:Hempty; [discriminate|].
  destruct (isValidInput _) eqn:Hvalid; [|discriminate].
  cbn. intros [= <-]. split; [done|]. split; [done|].
  split; [apply joined_boxes_upper|].
  exists inputs. split; [done|]. split; [done|].
  apply Forall_forall. intros value Hvalue Heq.
  apply not_true_iff_false in Hempty. apply Hempty.
  apply existsb_exists. exists (toUpperCase (trim value)). split.
  - apply in_map_iff. exists value. split; [done|]. by apply list_elem_of_In.
  - by apply bool_decide_eq_true_2.
Qed.

Lemma handleSubmit_score_rejected (service : string → option bool)
    (guess : string) (st : GameState) :
  validateWord service guess = false →
  handleSubmit_score service guess st = (ExitNotAWord, st).
Proof. intros H. unfold handleSubmit_score. by rewrite H. Qed.

(** The state left by the scoring phase when the dictionary accepts. *)
Lemma handleSubmit_score_accepted (service : string → option bool)
    (guess : string) (st : GameState) :
  validateWord service guess = true →
  let result := evalGame (processGuess guess) st in
  let recorded := guesses st ++ [(guess, result)] in
  handleSubmit_score service guess st
  = if bool_decide (toUpperCase guess = secretWord st) then
      (ExitWon,
       {| secretWord := secretWord st; guesses := recorded;
          currentRow := currentRow st; maxGuesses := maxGuesses st;
          gameOver := true |})
    else if (maxGuesses st <=? S (currentRow st))%nat then
      (ExitLost,
       {| secretWord := secretWord st; guesses := recorded;
          currentRow := S (currentRow st); maxGuesses := maxGuesses st;
          gameOver := true |})
    else
      (ExitNextRow,
       {| secretWord := secretWord st; guesses := recorded;
          currentRow := S (currentRow st); maxGuesses := maxGuesses st;
          gameOver := gameOver st |}).
Proof.
  intros H result recorded. subst result recorded.
  unfold handleSubmit_score. rewrite H. destruct st as [secret gs row limit over].
  cbv [negb mbind Game_bind mret Game_ret processGuess checkWinCondition
       pushGuess nextRow endGame gets modify evalGame fst
       secretWord guesses currentRow maxGuesses gameOver].
  destruct (bool_decide (toUpperCase guess = secret)); [reflexivity|].
  destruct (limit <=? S row)%nat; reflexivity.
Qed.

Lemma handleSubmit_unfold (dom : nat → option (list string))
    (service : string → option bool) (st : GameState) :
  handleSubmit dom service st
  = match evalGame (handleSubmit_collect dom) st with
    | inl exit => (exit, st)
    | inr guess => handleSubmit_score service guess st
    end.
Proof.
  pose proof (handleSubmit_collect_exec dom st) as Hexec.
  unfold handleSubmit, mbind, Game_bind, evalGame, execGame in *.
  destruct (handleSubmit_collect dom st) as [collected st1].
  simpl in *. subst st1. by destruct collected.
Qed.

(** X5. Once the game is over a submission does nothing: whatever the
    letter boxes hold and whatever the dictionary would say, [handleSubmit]
    leaves [gameState] as it is. *)
Theorem handleSubmit_game_over (dom : nat → option (list string))
    (service : string → option bool) (st : GameState) :
  gameOver st = true →
  handleSubmit dom service st = (ExitGameOver, st).
Proof.
  intros Hover. rewrite handleSubmit_unfold.
  unfold handleSubmit_collect, evalGame, mbind, Game_bind, gets, mret, Game_ret.
  by rewrite Hover.
Qed.

Lemma handleSubmit_game_over_witness :
  let st := {| secretWord := "CRANE"; guesses := []; currentRow := 2%nat;
               maxGuesses := 6%nat; gameOver := true |} in
  handleSubmit (λ _, Some ["c"; "r"; "a"; "n"; "e"]%string) (λ _, Some true) st
  = (ExitGameOver, st).
Proof. intros st. apply handleSubmit_game_over. reflexivity. Defined.

(** X6. [handleSubmit] either leaves [gameState] untouched or records
    exactly one guess. A recorded guess was read while the game was not
    over, passed [isValidInput], is in upper case, was accepted by the
    dictionary under its lower-case spelling, and is stored with the five
    classifications [processGuess] gives it; the secret word and the
    number of allowed guesses are never written. *)
Theorem handleSubmit_records_validated (dom : nat → option (list string))
    (service : string → option bool) (st : GameState) :
  let st' := execGame (handleSubmit dom service) st in
  st' = st
  ∨ (gameOver st = false
     ∧ secretWord st' = secretWord st
     ∧ maxGuesses st' = maxGuesses st
     ∧ ∃ guess,
         isValidInput guess = true
         ∧ toUpperCase guess = guess
         ∧ service (toLowerCase guess) = Some true
         ∧ length (evalGame (processGuess guess) st) = 5%nat
         ∧ guesses st'
           = guesses st ++ [(guess, evalGame (processGuess guess) st)]).
Proof.
  intros st'. subst st'. unfold execGame. rewrite handleSubmit_unfold.
  destruct (evalGame (handleSubmit_collect dom) st) as [exit|guess] eqn:Hc;
    [by left|].
  apply handleSubmit_collect_guess in Hc as (Hover & Hvalid & Hupper & _).
  destruct (validateWord service guess) eqn:Hdict.
  - right. rewrite (handleSubmit_score_accepted _ _ _ Hdict).
    assert (service (toLowerCase guess) = Some true) as Hservice.
    { unfold validateWord in Hdict.
      destruct (service (toLowerCase guess)) as [[]|]; done. }
    split; [done|].
    case_bool_decide; [|destruct (_ <=? _)%nat]; cbn;
      (split; [done|]); (split; [done|]); exists guess;
      rewrite processGuess_eval, score_length; done.
  - left. by rewrite handleSubmit_score_rejected.
Qed.

(** X7. What each exit of [handleSubmit] means. After a win the game is
    over, the row is not advanced and the guess recorded last is the secret
    word, scored five times [correct]. After a loss the game is over and
    the row counter has reached the number of allowed guesses. When play
    goes on, the row counter has advanced by one and is still below that
    number. On every other exit nothing was written. *)
Theorem handleSubmit_exits (dom : nat → option (list string))
    (service : string → option bool) (st : GameState) :
  let exit := evalGame (handleSubmit dom service) st in
  let st' := execGame (handleSubmit dom service) st in
  match exit with
  | ExitWon =>
      gameOver st' = true ∧ currentRow st' = currentRow st
      ∧ guesses st'
        = guesses st ++ [(secretWord st, replicate 5 (Some correct))]
  | ExitLost =>
      gameOver st' = true ∧ currentRow st' = S (currentRow st)
      ∧ (maxGuesses st ≤ currentRow st')%nat
      ∧ ∃ guess result, guesses st' = guesses st ++ [(guess, result)]
                        ∧ guess ≠ secretWord st
  | ExitNextRow =>
      gameOver st' = false ∧ currentRow st' = S (currentRow st)
      ∧ (currentRow st' < maxGuesses st)%nat
      ∧ ∃ guess result, guesses st' = guesses st ++ [(guess, result)]
                        ∧ guess ≠ secretWord st
  | _ => st' = st
  end.
Proof.
  intros exit st'. subst exit st'. unfold evalGame, execGame.
  rewrite handleSubmit_unfold.
  destruct (evalGame (handleSubmit_collect dom) st) as [exit|guess] eqn:Hc.
  - unfold handleSubmit_collect, evalGame, mbind, Game_bind, gets, mret,
      Game_ret in Hc.
    destruct (gameOver st); [by injection Hc as <-|].
    destruct (dom (currentRow st)); [|by injection Hc as <-].
    destruct (existsb _ _); [by injection Hc as <-|].
    destruct (isValidInput _); [discriminate|by injection Hc as <-].
  - apply handleSubmit_collect_guess in Hc as (Hover & Hvalid & Hupper & _).
    destruct (validateWord service guess) eqn:Hdict;
      [|by rewrite handleSubmit_score_rejected].
    rewrite (handleSubmit_score_accepted _ _ _ Hdict), Hupper.
    case_bool_decide as Hwin; [|destruct (_ <=? _)%nat eqn:Hrow]; cbn.
    + subst guess. split; [done|]. split; [done|]. do 3 f_equal.
      rewrite processGuess_eval, Hupper. apply score_all_correct_iff; [..|done];
        rewrite length_split; by apply isValidInput_iff in Hvalid as [? _].
    + apply Nat.leb_le in Hrow. split; [done|]. split; [done|].
      split; [done|]. eauto.
    + apply Nat.leb_gt in Hrow. split; [done|]. split; [done|].
      split; [done|]. eauto.
Qed.

(** X8. The scoring phase of [handleSubmit] runs after an [await] and does
    not look at [gameOver] or at the row again. So when a second submission
    of the same row is collected before the first one resumes, the guess is
    recorded twice, whatever the state of the game. *)
Theorem handleSubmit_overlap_records_twice (dom : nat → option (list string))
    (service : string → option bool) (st : GameState) (guess : string) :
  evalGame (handleSubmit_collect dom) st = inr guess →
  validateWord service guess = true →
  let first := execGame (handleSubmit_score service guess) st in
  let second := execGame (handleSubmit_score service guess) first in
  let result := evalGame (processGuess guess) st in
  execGame (handleSubmit_collect dom) st = st
  ∧ guesses second = guesses st ++ [(guess, result); (guess, result)]
  ∧ length (guesses second) = S (S (length (guesses st))).
Proof.
  intros _ Hdict first second result. subst first second result.
  split; [apply handleSubmit_collect_exec|].
  assert (∀ s, secretWord (execGame (handleSubmit_score service guess) s)
               = secretWord s
             ∧ guesses (execGame (handleSubmit_score service guess) s)
               = guesses s ++ [(guess, evalGame (processGuess guess) s)])
    as Hstep.
  { intros s. unfold execGame.
    rewrite (handleSubmit_score_accepted _ _ _ Hdict).
    case_bool_decide; [|destruct (_ <=? _)%nat]; done. }
  destruct (Hstep st) as [Hs1 Hg1].
  destruct (Hstep (execGame (handleSubmit_score service guess) st))
    as [_ Hg2].
  rewrite Hg2, Hg1, !processGuess_eval, Hs1, <- app_assoc.
  split; [reflexivity|]. rewrite length_app. simpl. lia.
Qed.

Lemma handleSubmit_overlap_records_twice_witness :
  let dom := λ _ : nat, Some ["t"; "r"; "a"; "c"; "e"]%string in
  let service := λ _ : string, Some true in
  let st := withSecret "CRANE" in
  let first := execGame (handleSubmit_score service "TRACE") st in
  let second := execGame (handleSubmit_score service "TRACE") first in
  let result := evalGame (processGuess "TRACE") st in
  execGame (handleSubmit_collect dom) st = st
  ∧ guesses second = guesses st ++ [("TRACE"%string, result);
                                    ("TRACE"%string, result)]
  ∧ length (guesses second) = S (S (length (guesses st))).
Proof.
  intros dom service st.
  apply (handleSubmit_overlap_records_twice dom service st "TRACE");
    reflexivity.
Defined.

(** ** The game as a state machine *)

Lemma processGuess_secret_only (guess : string) (st1 st2 : GameState) :
  secretWord st1 = secretWord st2 →
  evalGame (processGuess guess) st1 = evalGame (processGuess guess) st2.
Proof. intros H. by rewrite !processGuess_eval, H. Qed.

Lemma init_exec (response : option string) (st : GameState) :
  execGame (init response) st
  = match response with
    | Some word =>
        {| secretWord := toUpperCase word; guesses := guesses st;
           currentRow := currentRow st; maxGuesses := maxGuesses st;
           gameOver := gameOver st |}
    | None => st
    end.
Proof. by destruct response. Qed.

Lemma resetGame_exec (response : option string) (st : GameState) :
  execGame (resetGame response) st = execGame (init response) initialGameState.
Proof. by destruct response. Qed.

Lemma game_inv_load (response : option string) :
  game_inv (execGame (init response) initialGameState).
Proof.
  rewrite init_exec. unfold game_inv.
  destruct response as [word|]; cbn;
    (split; [done|]); (split; [by rewrite ?toUpperCase_idemp|]);
    (split; [by apply Forall_nil|]); (split; [|done]);
    intros _; (split; [done|]); (split; [lia|]); by apply Forall_nil.
Qed.

Lemma game_inv_score (service : string → option bool) (guess : string)
    (st : GameState) :
  gameOver st = false →
  isValidInput guess = true →
  toUpperCase guess = guess →
  validateWord service guess = true →
  game_inv st →
  game_inv (execGame (handleSubmit_score service guess) st).
Proof.
  intros Hover Hvalid Hupper Hdict (Hmax & Hsecret & Hrec & Hopen & _).
  destruct (Hopen Hover) as (Hrow & Hlen & Hne). clear Hopen.
  unfold execGame. rewrite (handleSubmit_score_accepted _ _ _ Hdict), Hupper.
  assert (∀ st', secretWord st' = secretWord st →
            Forall (λ entry, isValidInput entry.1 = true
                             ∧ toUpperCase entry.1 = entry.1
                             ∧ entry.2 = evalGame (processGuess entry.1) st')
              (guesses st ++ [(guess, evalGame (processGuess guess) st)]))
    as Hrec'.
  { intros st' Hs. apply Forall_app. split.
    - eapply Forall_impl; [exact Hrec|]. intros [w r] (? & ? & ->).
      cbn. by rewrite (processGuess_secret_only w st' st).
    - apply Forall_singleton. cbn.
      by rewrite (processGuess_secret_only guess st' st). }
  unfold game_inv.
  case_bool_decide as Hwin; [|destruct (_ <=? _)%nat eqn:Hlimit]; cbn.
  - split; [done|]. split; [done|]. split; [by apply Hrec'|].
    split; [done|]. intros _. right. subst guess. eauto 10.
  - apply Nat.leb_le in Hlimit.
    split; [done|]. split; [done|]. split; [by apply Hrec'|].
    split; [done|]. intros _. left. rewrite length_app. cbn.
    split; [lia|]. split; [lia|].
    apply Forall_app. split; [done|]. by apply Forall_singleton.
  - apply Nat.leb_gt in Hlimit.
    split; [done|]. split; [done|]. split; [by apply Hrec'|].
    split; [|by rewrite Hover]. intros _. rewrite length_app. cbn.
    split; [lia|]. split; [lia|].
    apply Forall_app. split; [done|]. by apply Forall_singleton.
Qed.

Lemma game_inv_submit (dom : nat → option (list string))
    (service : string → option bool) (st : GameState) :
  game_inv st → game_inv (execGame (handleSubmit dom service) st).
Proof.
  intros Hinv. unfold execGame. rewrite handleSubmit_unfold.
  destruct (evalGame (handleSubmit_collect dom) st) as [exit|guess] eqn:Hc;
    [done|].
  apply handleSubmit_collect_guess in Hc as (Hover & Hvalid & Hupper & _).
  destruct (validateWord service guess) eqn:Hdict.
  - by apply game_inv_score.
  - by rewrite handleSubmit_score_rejected.
Qed.

Lemma reachable_game_inv (st : GameState) : reachable st → game_inv st.
Proof.
  induction 1 as [response|st dom service _ IH|st response _ _].
  - apply game_inv_load.
  - by apply game_inv_submit.
  - rewrite resetGame_exec. apply game_inv_load.
Qed.

(** X9. When the handlers run one at a time, at most six guesses are ever
    recorded and the row counter never passes six; while the game is not
    over the row counter equals the number of recorded guesses and is
    below six. *)
Theorem reachable_guess_limit (st : GameState) :
  reachable st →
  maxGuesses st = 6%nat
  ∧ (length (guesses st) ≤ 6)%nat
  ∧ (currentRow st ≤ 6)%nat
  ∧ (gameOver st = false →
     currentRow st = length (guesses st) ∧ (currentRow st < 6)%nat).
Proof.
  intros (Hmax & _ & _ & Hopen & Hover)%reachable_game_inv.
  split; [done|]. destruct (gameOver st).
  - destruct (Hover eq_refl) as [(? & ? & _)|(gs & r & -> & ? & ? & _)].
    + repeat split; (lia || done).
    + rewrite length_app. cbn. repeat split; (lia || done).
  - destruct (Hopen eq_refl) as (? & ? & _). repeat split; lia.
Qed.

Lemma reachable_guess_limit_witness :
  let st := execGame (handleSubmit (λ _, Some ["t"; "r"; "a"; "c"; "e"]%string)
                        (λ _, Some true))
              (execGame (init (Some "crane"%string)) initialGameState) in
  maxGuesses st = 6%nat
  ∧ (length (guesses st) ≤ 6)%nat
  ∧ (currentRow st ≤ 6)%nat
  ∧ (gameOver st = false →
     currentRow st = length (guesses st) ∧ (currentRow st < 6)%nat).
Proof.
  intros st. apply reachable_guess_limit.
  apply reachable_submit, reachable_load.
Defined.

(** X10. When the handlers run one at a time, the stored secret word is
    always in upper case. Hence, in every such state, scoring and the win
    test compare guess and secret without regard to letter case. *)
Theorem reachable_secret_upper (st : GameState) (guess : string) :
  reachable st →
  toUpperCase (secretWord st) = secretWord st
  ∧ evalGame (processGuess guess) st
    = evalGame (processGuess (toUpperCase guess))
        (withSecret (toUpperCase (secretWord st)))
  ∧ (evalGame (checkWinCondition guess) st = true
     ↔ toUpperCase guess = toUpperCase (secretWord st)).
Proof.
  intros (_ & Hsecret & _)%reachable_game_inv. split; [done|].
  rewrite !processGuess_eval, checkWinCondition_eval, bool_decide_eq_true.
  cbn. by rewrite toUpperCase_idemp, Hsecret.
Qed.

Lemma reachable_secret_upper_witness :
  let st := execGame (init (Some "crane"%string)) initialGameState in
  toUpperCase (secretWord st) = secretWord st
  ∧ evalGame (processGuess "Trace") st
    = evalGame (processGuess (toUpperCase "Trace"))
        (withSecret (toUpperCase (secretWord st)))
  ∧ (evalGame (checkWinCondition "Trace") st = true
     ↔ toUpperCase "Trace" = toUpperCase (secretWord st)).
Proof. intros st. apply reachable_secret_upper, reachable_load. Defined.

(** X11. When the handlers run one at a time, every recorded guess is five
    upper-case letters accepted by [isValidInput], and the result stored
    with it is the scoring of that guess against the current secret word:
    five classifications. *)
Theorem reachable_history (st : GameState) (word : string)
    (result : list (option Classification)) :
  reachable st →
  (word, result) ∈ guesses st →
  isValidInput word = true
  ∧ toUpperCase word = word
  ∧ (∀ c, c ∈ split word → is_upper c = true)
  ∧ result = evalGame (processGuess word) st
  ∧ length result = 5%nat.
Proof.
  intros (_ & _ & Hrec & _)%reachable_game_inv Hin.
  rewrite Forall_forall in Hrec.
  destruct (Hrec _ Hin) as (Hvalid & Hupper & Hres). cbn in *.
  split; [done|]. split; [done|]. split.
  - intros c Hc. apply (isValidInput_upper_letters word); [done|].
    by rewrite Hupper.
  - split; [done|]. by rewrite Hres, processGuess_eval, score_length.
Qed.

Lemma reachable_history_witness :
  let st := execGame (handleSubmit (λ _, Some ["t"; "r"; "a"; "c"; "e"]%string)
                        (λ _, Some true))
              (execGame (init (Some "crane"%string)) initialGameState) in
  let result :=
    [Some absent; Some correct; Some correct; Some present; Some correct] in
  isValidInput "TRACE" = true
  ∧ toUpperCase "TRACE" = "TRACE"%string
  ∧ (∀ c, c ∈ split "TRACE" → is_upper c = true)
  ∧ result = evalGame (processGuess "TRACE") st
  ∧ length result = 5%nat.
Proof.
  intros st result. apply (reachable_history st "TRACE" result).
  - apply reachable_submit, reachable_load.
  - vm_compute. left.
Defined.

(** X12. When the handlers run one at a time, the game is over exactly when
    six guesses are recorded or the guess recorded last is the secret
    word; and no guess other than the last one equals the secret word. *)
Theorem reachable_game_over_iff (st : GameState) :
  reachable st →
  (gameOver st = true
   ↔ length (guesses st) = 6%nat
     ∨ ∃ result, last (guesses st) = Some (secretWord st, result))
  ∧ ∀ i result,
      guesses st !! i = Some (secretWord st, result) →
      S i = length (guesses st) ∧ gameOver st = true.
Proof.
  intros (_ & _ & _ & Hopen & Hover)%reachable_game_inv.
  assert (∀ gs : list (string * list (option Classification)),
            Forall (λ entry, entry.1 ≠ secretWord st) gs →
            ∀ i result, gs !! i = Some (secretWord st, result) → False)
    as Hnone.
  { intros gs Hgs i result Hi. rewrite Forall_forall in Hgs.
    apply (Hgs (secretWord st, result)); [|done].
    apply list_elem_of_lookup. eauto. }
  destruct (gameOver st).
  - destruct (Hover eq_refl)
      as [(_ & Hlen & Hne)|(earlier & r & Hgs & _ & _ & Hne)].
    + split; [by intuition|]. intros i result Hi. by destruct (Hnone _ Hne i result).
    + split.
      * split; [|done]. intros _. right. exists r. rewrite Hgs. apply last_snoc.
      * intros i result. rewrite Hgs, length_app. cbn. intros Hi.
        destruct (decide (i < length earlier)%nat) as [Hlt|Hge].
        -- rewrite lookup_app_l in Hi by done.
           by destruct (Hnone _ Hne i result).
        -- apply lookup_lt_Some in Hi as Hlt. rewrite length_app in Hlt.
           cbn in Hlt. split; [lia|done].
  - destruct (Hopen eq_refl) as (_ & Hlen & Hne). split.
    + split; [done|]. intros [H6|[result Hlast]]; [lia|].
      apply last_Some in Hlast as [earlier Hgs].
      exfalso. apply (Hnone _ Hne (length earlier) result).
      rewrite Hgs. apply list_lookup_middle. done.
    + intros i result Hi. by destruct (Hnone _ Hne i result).
Qed.

Lemma reachable_game_over_iff_witness :
  let st := execGame (handleSubmit (λ _, Some ["c"; "r"; "a"; "n"; "e"]%string)
                        (λ _, Some true))
              (execGame (init (Some "crane"%string)) initialGameState) in
  (gameOver st = true
   ↔ length (guesses st) = 6%nat
     ∨ ∃ result, last (guesses st) = Some (secretWord st, result))
  ∧ ∀ i result,
      guesses st !! i = Some (secretWord st, result) →
      S i = length (guesses st) ∧ gameOver st = true.
Proof.
  intros st. apply reachable_game_over_iff.
  apply reachable_submit, reachable_load.
Defined.

(** ** More on the scoring *)

Lemma count_upto_letter_split (L : ascii) (g s : list ascii) (n : nat) :
  count_upto (λ i, bool_decide (g !! i = Some L)) n
  = count_upto (exact_with L g s) n + count_upto (misplaced_with L g s) n.
Proof.
  apply count_upto_split; intros i _; unfold exact_with, misplaced_with;
    destruct (bool_decide (g !! i = Some L)), (exact g s i); reflexivity.
Qed.

Lemma score_hits (L : ascii) (g s : list ascii) :
  count_upto (hit_with L g (score g s)) 5
  = count_upto (exact_with L g s) 5
    + Z.min (count_upto (misplaced_with L g s) 5) (remaining L g s).
Proof.
  rewrite (count_upto_split _ (exact_with L g s)
    (λ i, misplaced_with L g s i
          && bool_decide (count_upto (misplaced_with L g s) i < remaining L g s))).
  - rewrite count_upto_first. pose proof (remaining_nonneg L g s). lia.
  - intros i Hi. by apply hit_with_score.
  - intros i _. unfold exact_with, misplaced_with.
    destruct (bool_decide (g !! i = Some L)), (exact g s i); reflexivity.
Qed.

(** X13. For every letter [L], the number of positions classified
    [correct] or [present] whose guessed letter is [L] is exactly the
    smaller of the number of [L] among the first five letters of the guess
    and the number of [L] in the secret word. *)
Theorem processGuess_hits_min (guess : string) (st : GameState) (L : ascii) :
  count_upto
    (hit_with L (split (toUpperCase guess)) (evalGame (processGuess guess) st))
    5
  = Z.min (occurrences L (take 5 (split (toUpperCase guess))))
      (occurrences L (split (secretWord st))).
Proof.
  rewrite processGuess_eval, score_hits, <- count_upto_take.
  rewrite (count_upto_letter_split L _ (split (secretWord st))).
  unfold remaining. lia.
Qed.

(** X14. A position is classified [correct] exactly when guess and secret
    agree there; this includes a position that both words lack. *)
Theorem processGuess_correct_iff (guess : string) (st : GameState) (i : nat) :
  (i < 5)%nat →
  evalGame (processGuess guess) st !! i = Some (Some correct)
  ↔ split (toUpperCase guess) !! i = split (secretWord st) !! i.
Proof.
  intros Hi. rewrite processGuess_eval, score_lookup by done.
  rewrite <- classify_correct_iff. split; [congruence|by intros ->].
Qed.

Lemma processGuess_correct_iff_witness :
  evalGame (processGuess "ab") (withSecret "AB") !! 4%nat = Some (Some correct)
  ↔ split (toUpperCase "ab") !! 4%nat = split (secretWord (withSecret "AB")) !! 4%nat.
Proof. apply (processGuess_correct_iff "ab" (withSecret "AB") 4). lia. Defined.

(** X15. An [absent] verdict on a letter [L] gives the player the exact
    number of [L] in the secret word: it is the number of positions of the
    guess holding [L] that were classified [correct] or [present]. *)
Theorem processGuess_absent_exact_count (guess : string) (st : GameState)
    (i : nat) (L : ascii) :
  (i < 5)%nat →
  split (toUpperCase guess) !! i = Some L →
  evalGame (processGuess guess) st !! i = Some (Some absent) →
  count_upto
    (hit_with L (split (toUpperCase guess)) (evalGame (processGuess guess) st))
    5
  = occurrences L (split (secretWord st)).
Proof.
  intros Hi HL. rewrite processGuess_eval, score_lookup, score_hits by done.
  set (g := split (toUpperCase guess)) in *.
  set (s := split (secretWord st)) in *.
  intros Habs. assert (classify g s i = absent) as Hc by congruence.
  unfold classify in Hc. destruct (exact g s i) eqn:Hex; [discriminate|].
  rewrite HL in Hc. case_bool_decide as Hlt; [discriminate|].
  pose proof (count_upto_le (misplaced_with L g s) i 5) as Hle.
  unfold remaining in *. lia.
Qed.

Lemma processGuess_absent_exact_count_witness :
  count_upto
    (hit_with "A" (split (toUpperCase "LLAMA"))
       (evalGame (processGuess "LLAMA") (withSecret "ALLOY")))
    5
  = occurrences "A" (split (secretWord (withSecret "ALLOY"))).
Proof.
  apply (processGuess_absent_exact_count "LLAMA" (withSecret "ALLOY") 4 "A");
    [lia|reflexivity|vm_compute; reflexivity].
Defined.

(** X16. The counters of [secretLetterCount] never go below zero: not
    after any number of iterations of the first pass, nor of the second.
    When [processGuess] is done, the counter of a letter holds what the
    secret has of it beyond the first five letters of the guess. *)
Theorem secretLetterCount_never_negative (g s : list ascii) (L : ascii)
    (n : nat) :
  0 ≤ numval ((for_loop n (firstPass_body g s) ([], countLetters s)).2
                !! prop_key (Some L))
  ∧ ((n ≤ 5)%nat →
     0 ≤ numval ((for_loop n (secondPass_body g) (firstPass g s)).2
                   !! prop_key (Some L)))
  ∧ numval ((secondPass g s).2 !! prop_key (Some L))
    = Z.max 0 (occurrences L s - occurrences L (take 5 g)).
Proof.
  split; [|split].
  - destruct (firstPass_inv_loop g s n) as (_ & _ & Hcnt & _).
    rewrite Hcnt. pose proof (exact_with_le_occurrences L g s n).
    case_decide; cbn; lia.
  - intros Hn. destruct (secondPass_inv_loop g s n Hn) as (_ & _ & Hcnt & _).
    rewrite Hcnt. lia.
  - destruct (secondPass_inv_loop g s 5 (Nat.le_refl 5)) as (_ & _ & Hcnt & _).
    fold (secondPass g s) in Hcnt.
    rewrite Hcnt, <- count_upto_take, (count_upto_letter_split L g s).
    unfold remaining. lia.
Qed.

Lemma secretLetterCount_never_negative_witness :
  0 ≤ numval ((for_loop 3 (secondPass_body (split "ERASE"))
                 (firstPass (split "ERASE") (split "SPEED"))).2
                !! prop_key (Some "E"%char)).
Proof.
  apply (proj1 (proj2 (secretLetterCount_never_negative
                         (split "ERASE") (split "SPEED") "E" 3))). lia.
Defined.

(** ** Edge cases of a whole game *)

Lemma score_empty_secret (g : list ascii) :
  length g = 5%nat → score g [] = replicate 5 (Some absent).
Proof.
  intros Hg. apply list_eq_same_length with 5%nat; [done|apply score_length|].
  intros i x y Hi Hx Hy. rewrite score_lookup in Hx by done.
  rewrite lookup_replicate_2 in Hy by done.
  destruct (lookup_lt_is_Some_2 g i) as [c Hc]; [lia|].
  rewrite (classify_missing g [] i c) in Hx; [congruence|done|].
  apply not_elem_of_nil.
Qed.

(** X17. A reset whose fetch fails leaves the game with an empty secret
    word. Against it every five-character guess is scored five times
    [absent] and [checkWinCondition] is false: such a game cannot be won. *)
Theorem resetGame_failed_fetch (st : GameState) (guess : string) :
  String.length guess = 5%nat →
  let st' := execGame (resetGame None) st in
  st' = initialGameState
  ∧ evalGame (processGuess guess) st' = replicate 5 (Some absent)
  ∧ evalGame (checkWinCondition guess) st' = false.
Proof.
  intros Hlen st'. subst st'. split; [reflexivity|].
  rewrite processGuess_eval, checkWinCondition_eval. cbn. split.
  - apply score_empty_secret. by rewrite length_split, length_toUpperCase.
  - apply bool_decide_eq_false_2. intros Heq.
    apply (f_equal String.length) in Heq.
    rewrite length_toUpperCase, Hlen in Heq. discriminate.
Qed.

Lemma resetGame_failed_fetch_witness :
  let st' := execGame (resetGame None) (withSecret "CRANE") in
  st' = initialGameState
  ∧ evalGame (processGuess "crane") st' = replicate 5 (Some absent)
  ∧ evalGame (checkWinCondition "crane") st' = false.
Proof.
  apply (resetGame_failed_fetch (withSecret "CRANE") "crane"). reflexivity.
Defined.

Lemma is_alpha_not_space (c : ascii) : is_alpha c = true → is_space c = false.
Proof.
  destruct c as [[] [] [] [] [] [] [] []]; intros H;
    first [reflexivity | vm_compute in H; discriminate H].
Qed.

Lemma trim_letter (c : ascii) :
  is_alpha c = true → trim (String c EmptyString) = String c EmptyString.
Proof.
  intros Hc%is_alpha_not_space. unfold trim, split. cbn. rewrite Hc. cbn.
  by rewrite Hc.
Qed.

(** One letter per box, as typed. *)
Lemma boxes_of_letters (cs : list ascii) :
  Forall (λ c, is_alpha c = true) cs →
  existsb (λ letter, bool_decide (letter = EmptyString))
    (map (λ value, toUpperCase (trim value))
       (map (λ c, String c EmptyString) cs)) = false
  ∧ String.concat EmptyString
      (map (λ value, toUpperCase (trim value))
         (map (λ c, String c EmptyString) cs))
    = string_of_list_ascii (map upper_char cs).
Proof.
  induction 1 as [|c cs Hc _ [IH1 IH2]]; [done|].
  rewrite !map_cons, concat_empty_cons, IH2, trim_letter by done.
  split; [|reflexivity]. cbn [existsb]. by rewrite IH1.
Qed.

(** X18. Typing the secret word wins. In a game that is not over, when the
    boxes of the current row hold, one letter each and in any letter case,
    a five-letter word equal to the secret word up to case, and the
    dictionary knows the word, [handleSubmit] records the secret word with
    five [correct], ends the game and leaves the row counter where it is. *)
Theorem handleSubmit_typing_secret_wins (dom : nat → option (list string))
    (service : string → option bool) (st : GameState) (typed : string) :
  gameOver st = false →
  isValidInput typed = true →
  toUpperCase typed = secretWord st →
  dom (currentRow st) = Some (map (λ c, String c EmptyString) (split typed)) →
  service (toLowerCase typed) = Some true →
  handleSubmit dom service st
  = (ExitWon,
     {| secretWord := secretWord st;
        guesses := guesses st
                   ++ [(secretWord st, replicate 5 (Some correct))];
        currentRow := currentRow st; maxGuesses := maxGuesses st;
        gameOver := true |}).
Proof.
  intros Hover Hvalid Hsecret Hdom Hservice.
  assert (Forall (λ c, is_alpha c = true) (split typed)) as Halpha.
  { apply Forall_forall. by apply isValidInput_iff in Hvalid as [_ ?]. }
  destruct (boxes_of_letters _ Halpha) as [Hnonempty Hjoin].
  rewrite <- split_toUpperCase in Hjoin.
  unfold split in Hjoin at 2. rewrite string_of_list_ascii_of_string in Hjoin.
  assert (evalGame (handleSubmit_collect dom) st = inr (toUpperCase typed))
    as Hcollect.
  { unfold handleSubmit_collect, evalGame, mbind, Game_bind, gets, mret,
      Game_ret.
    rewrite Hover, Hdom, Hnonempty, Hjoin, isValidInput_toUpperCase, Hvalid.
    reflexivity. }
  rewrite handleSubmit_unfold, Hcollect.
  assert (validateWord service (toUpperCase typed) = true) as Hdict
    by (unfold validateWord; by rewrite toLowerCase_toUpperCase, Hservice).
  assert (evalGame (processGuess (toUpperCase typed)) st
          = replicate 5 (Some correct)) as Hresult.
  { rewrite processGuess_eval, <- Hsecret, toUpperCase_idemp.
    apply score_all_correct_iff; [..|done];
      rewrite length_split, length_toUpperCase;
      by apply isValidInput_iff in Hvalid as [? _]. }
  rewrite (handleSubmit_score_accepted _ _ _ Hdict), toUpperCase_idemp.
  rewrite bool_decide_eq_true_2 by done. by rewrite Hresult, Hsecret.
Qed.

Lemma handleSubmit_typing_secret_wins_witness :
  let st := execGame (init (Some "crane"%string)) initialGameState in
  handleSubmit (λ _, Some (map (λ c, String c EmptyString) (split "Crane")))
    (λ _, Some true) st
  = (ExitWon,
     {| secretWord := secretWord st;
        guesses := guesses st
                   ++ [(secretWord st, replicate 5 (Some correct))];
        currentRow := currentRow st; maxGuesses := maxGuesses st;
        gameOver := true |}).
Proof.
  intros st.
  apply (handleSubmit_typing_secret_wins _ _ st "Crane"); reflexivity.
Defined.

(** ** Letter case of guess and secret *)

(** C8. The scorer is case-insensitive in both inputs. [processGuess]
    upper-cases the guess and [fetchSecretWord] upper-cases the secret when
    it stores it. So, for every guess and every secret word handed to the
    game, the result equals the result obtained after normalising both to
    upper case, and changing only the letter case of the guess or of the
    secret changes no classification. The same is true in every state the
    game reaches, whose stored secret is always in upper case. *)
Theorem processGuess_case_insensitive (guess word : string) (st : GameState) :
  evalGame (processGuess guess) (execGame (fetchSecretWord (Some word)) st)
  = evalGame (processGuess (toUpperCase guess))
      (execGame (fetchSecretWord (Some (toUpperCase word))) st)
  ∧ (∀ guess' word',
       toUpperCase guess' = toUpperCase guess →
       toUpperCase word' = toUpperCase word →
       evalGame (processGuess guess')
         (execGame (fetchSecretWord (Some word')) st)
       = evalGame (processGuess guess)
           (execGame (fetchSecretWord (Some word)) st))
  ∧ (reachable st →
     evalGame (processGuess guess) st
     = evalGame (processGuess (toUpperCase guess))
         (withSecret (toUpperCase (secretWord st)))
     ∧ ∀ guess',
         toUpperCase guess' = toUpperCase guess →
         evalGame (processGuess guess') st = evalGame (processGuess guess) st).
Proof.
  split; [|split].
  - rewrite !processGuess_eval, !fetchSecretWord_exec. cbn.
    by rewrite !toUpperCase_idemp.
  - intros guess' word' Hg Hw.
    rewrite !processGuess_eval, !fetchSecretWord_exec. cbn. by rewrite Hg, Hw.
  - intros (_ & Hsecret & _)%reachable_game_inv. split.
    + rewrite !processGuess_eval. cbn. by rewrite toUpperCase_idemp, Hsecret.
    + intros guess' Hg. rewrite !processGuess_eval. by rewrite Hg.
Qed.

Lemma processGuess_case_insensitive_witness :
  let st := execGame (init (Some "Crane"%string)) initialGameState in
  evalGame (processGuess "tRACE")
    (execGame (fetchSecretWord (Some "CRANE"%string)) st)
  = evalGame (processGuess "Trace")
      (execGame (fetchSecretWord (Some "crane"%string)) st)
  ∧ evalGame (processGuess "Trace") st
    = evalGame (processGuess (toUpperCase "Trace"))
        (withSecret (toUpperCase (secretWord st)))
  ∧ evalGame (processGuess "tRACE") st = evalGame (processGuess "Trace") st.
Proof.
  intros st.
  destruct (processGuess_case_insensitive "Trace" "crane" st)
    as (_ & Hcase & Hreach).
  split; [by apply Hcase|].
  destruct (Hreach (reachable_load (Some "Crane"%string))) as [Hnorm Hguess].
  split; [exact Hnorm|by apply Hguess].
Defined.
